(** * Lens shader and frame loop of [script.js]

    A shallow embedding of the fragment shader built by [App.getShader] and of
    the [App] methods that feed it ([onMouseMove], [onResize], [animate]),
    of whole sessions of callbacks, and of the counter of [setupPreloader].
    The DOM and audio wiring of [addEventListeners] and [hidePreloader] is
    not modelled.

    Numbers.  The first model takes the GLSL [float]s and the JavaScript
    numbers as real numbers; it carries the properties that rounding leaves
    untouched.  Operations whose result GLSL leaves undefined (division by
    zero, [normalize] of the zero vector, [smoothstep] with
    [edge0 >= edge1], [pow] outside its domain) are guarded there: they
    yield [None], and the fragment program is strict in them.  Where a
    property depends on rounding, the same code is modelled a second time
    on IEEE 754 numbers: the lens mask in binary32 ([Binary32]) and the
    application object in binary64 ([Binary64]), whose handlers are total.

    The GLSL built-ins and the [THREE.Vector2] methods are not code of this
    program; they are written down from the language and library
    definitions.  The vertex shader only passes [uv] on as [vUv]. *)

From Stdlib Require Import Reals Lra Lia List String.
From Stdlib Require Import ZArith QArith Qabs Qround Ascii DecimalString.
From Stdlib Require Import Floats.SpecFloat.
Import ListNotations.

Local Open Scope R_scope.

(** ** A small error monad for guarded arithmetic *)

Definition bind {A B : Type} (m : option A) (k : A -> option B) : option B :=
  match m with
  | Some a => k a
  | None => None
  end.

Definition ret {A : Type} (a : A) : option A := Some a.

Notation "x <- m ;; k" := (bind m (fun x => k))
  (at level 61, m at next level, right associativity).

(** [a / b], undefined when [b = 0]. *)
Definition gdiv (a b : R) : option R :=
  if Req_dec_T b 0 then None else Some (a / b).

(** ** Vectors and colours *)

Record vec2 : Type := Vector2 { vx : R; vy : R }.

Record vec4 : Type := Vector4 { r : R; g : R; b : R; a : R }.

Definition vadd (p q : vec2) : vec2 := Vector2 (vx p + vx q) (vy p + vy q).
Definition vsub (p q : vec2) : vec2 := Vector2 (vx p - vx q) (vy p - vy q).
(** componentwise product, GLSL [p * q] on [vec2] *)
Definition vmul (p q : vec2) : vec2 := Vector2 (vx p * vx q) (vy p * vy q).
(** [p * s] with a scalar *)
Definition vscale (p : vec2) (s : R) : vec2 := Vector2 (vx p * s) (vy p * s).

(** A bound texture, seen through its sampler: coordinate to texel.  The
    filtering and the addressing mode are part of the function. *)
Definition sampler2D : Type := vec2 -> vec4.

(** ** GLSL built-in functions used by the shader *)

Module GLSL.

Definition dot (p q : vec2) : R := vx p * vx q + vy p * vy q.

Definition length (p : vec2) : R := sqrt (dot p p).

Definition distance (p0 p1 : vec2) : R := length (vsub p0 p1).

(** [normalize(v) = v / length(v)]; undefined on the zero vector. *)
Definition normalize (v : vec2) : option vec2 :=
  nx <- gdiv (vx v) (length v) ;;
  ny <- gdiv (vy v) (length v) ;;
  ret (Vector2 nx ny).

Definition clamp (x minVal maxVal : R) : R := Rmin (Rmax x minVal) maxVal.

(** [t = clamp((x - edge0) / (edge1 - edge0), 0, 1); t * t * (3 - 2 * t)];
    undefined when [edge0 >= edge1]. *)
Definition smoothstep (edge0 edge1 x : R) : option R :=
  if Rlt_dec edge0 edge1 then
    q <- gdiv (x - edge0) (edge1 - edge0) ;;
    let t := clamp q 0 1 in
    ret (t * t * (3 - 2 * t))
  else None.

(** [pow(x, y)]: undefined for [x < 0], and for [x = 0] with [y <= 0]. *)
Definition pow (x y : R) : option R :=
  if Rlt_dec x 0 then None
  else if Req_dec_T x 0 then
    (if Rlt_dec 0 y then Some 0 else None)
  else Some (Rpower x y).

Definition texture2D (s : sampler2D) (coord : vec2) : vec4 := s coord.

End GLSL.

(** ** Configuration *)

Record Config : Type := mkConfig {
  imagePath : string;
  lensSize : R;
  lensBulge : R;
  aberrationStrength : R
}.

Definition CONFIG : Config :=
  {| imagePath := "./images/background.jpg";
     lensSize := 0.4;
     lensBulge := 0.5;
     aberrationStrength := 0.03 |}.

(** ** The fragment shader of [getShader]

    The template literal splices [CONFIG.lensSize], [CONFIG.lensBulge] and
    [CONFIG.aberrationStrength] into the three global floats [lensSize],
    [bulge] and [abStr]; the embedding takes the configuration as an
    argument.  The uniforms [uTime] and [uHover] are declared but not read.
    [main] is cut at the source's own comments into one function per stage,
    each taking the values the stage reads. *)

Module Fragment.

(** Everything [main] computes for one fragment. *)
Record Frag : Type := mkFrag {
  dist : R;
  lensMask : R;
  distortedUv : vec2;
  aberration : R;
  gl_FragColor : vec4
}.

Section Main.

Variable c : Config.

(** lines 79-83 *)
Definition main_dist (uResolution uMouse uv : vec2) : option R :=
  ax <- gdiv (vx uResolution) (vy uResolution) ;;
  let aspect := Vector2 ax 1.0 in
  let mousePos := uMouse in
  ret (GLSL.distance (vmul uv aspect) (vmul mousePos aspect)).

(** line 86 *)
Definition main_lensMask (dist : R) : option R :=
  s <- GLSL.smoothstep (lensSize c * 0.8) (lensSize c) dist ;;
  ret (1.0 - s).

(** lines 89-99 *)
Definition main_distortedUv (uMouse uv : vec2) (dist : R) : option vec2 :=
  let mousePos := uMouse in
  if Rlt_dec dist (lensSize c) then
    q <- gdiv dist (lensSize c) ;;
    displacement <- GLSL.pow q (lensBulge c) ;;
    dir <- GLSL.normalize (vsub uv mousePos) ;;
    ret (vadd mousePos (vscale dir (dist * (1.0 - lensBulge c * 0.5))))
  else ret uv.

(** line 103 *)
Definition main_aberration (lensMask dist : R) : option R :=
  q <- gdiv dist (lensSize c) ;;
  ret (lensMask * aberrationStrength c * q).

(** lines 105-109 *)
Definition main_color (uTexture : sampler2D) (distortedUv : vec2)
    (aberration : R) : vec4 :=
  {| r := r (GLSL.texture2D uTexture
               (vadd distortedUv (Vector2 aberration 0.0)));
     g := g (GLSL.texture2D uTexture distortedUv);
     b := b (GLSL.texture2D uTexture
               (vsub distortedUv (Vector2 aberration 0.0)));
     a := 1.0 |}.

Definition main (uTexture : sampler2D) (uResolution uMouse vUv : vec2)
  : option Frag :=
  let uv := vUv in
  dist <- main_dist uResolution uMouse uv ;;
  lensMask <- main_lensMask dist ;;
  distortedUv <- main_distortedUv uMouse uv dist ;;
  aberration <- main_aberration lensMask dist ;;
  ret (mkFrag dist lensMask distortedUv aberration
         (main_color uTexture distortedUv aberration)).

(** *** The shader without the [displacement] statement

    Line 93 deleted, everything else as above. *)

Definition main_distortedUv_nodisp (uMouse uv : vec2) (dist : R)
  : option vec2 :=
  let mousePos := uMouse in
  if Rlt_dec dist (lensSize c) then
    dir <- GLSL.normalize (vsub uv mousePos) ;;
    ret (vadd mousePos (vscale dir (dist * (1.0 - lensBulge c * 0.5))))
  else ret uv.

Definition main_nodisp (uTexture : sampler2D)
    (uResolution uMouse vUv : vec2) : option Frag :=
  let uv := vUv in
  dist <- main_dist uResolution uMouse uv ;;
  lensMask <- main_lensMask dist ;;
  distortedUv <- main_distortedUv_nodisp uMouse uv dist ;;
  aberration <- main_aberration lensMask dist ;;
  ret (mkFrag dist lensMask distortedUv aberration
         (main_color uTexture distortedUv aberration)).

End Main.

End Fragment.

(** ** The application object

    [THREE.Vector2] is the record [vec2]; its methods [set], [copy] and
    [lerp] overwrite the receiver, so each becomes a function returning the
    receiver's new value.  No two fields of [App] share a vector:
    [uMouse.value.copy(this.mouse)] copies the components. *)

Module Vector2Methods.

Definition set (_ : vec2) (x y : R) : vec2 := Vector2 x y.

Definition copy (_ v : vec2) : vec2 := Vector2 (vx v) (vy v).

(** [this.x += (v.x - this.x) * alpha; this.y += (v.y - this.y) * alpha] *)
Definition lerp (this v : vec2) (alpha : R) : vec2 :=
  Vector2 (vx this + (vx v - vx this) * alpha)
          (vy this + (vy v - vy this) * alpha).

End Vector2Methods.

(** The [uniforms] of the [ShaderMaterial]; [uTexture] is [null] until the
    loader's callback installs the image. *)
Record Uniforms : Type := mkUniforms {
  uTexture : option sampler2D;
  uMouse : vec2;
  uResolution : vec2;
  uTime : R;
  uHover : R
}.

(** What a method asks of the browser and of the renderer. *)
Inductive Effect : Type :=
| RequestAnimationFrame
| RendererSetSize (w h : R)
| RendererRender (u : option Uniforms).

Record App : Type := mkApp {
  width : R;
  height : R;
  mouse : vec2;
  targetMouse : vec2;
  material : option Uniforms;
  effects : list Effect          (* most recent first *)
}.

Record MouseEvent : Type := mkMouseEvent { clientX : R; clientY : R }.

(** [init] then [createRenderer] then [createMesh], for a window of the
    given inner size. *)
Definition init (innerWidth innerHeight : R) : App :=
  {| width := innerWidth;
     height := innerHeight;
     mouse := Vector2 0.5 0.5;
     targetMouse := Vector2 0.5 0.5;
     material := None;
     effects := [] |}.

(** Of [createRenderer] the size of the renderer; the pixel-ratio call is
    in [Binary64.createRenderer]. *)
Definition createRenderer (app : App) : App :=
  {| width := width app;
     height := height app;
     mouse := mouse app;
     targetMouse := targetMouse app;
     material := material app;
     effects := RendererSetSize (width app) (height app) :: effects app |}.

Definition createMesh (app : App) : App :=
  {| width := width app;
     height := height app;
     mouse := mouse app;
     targetMouse := targetMouse app;
     material :=
       Some {| uTexture := None;
               uMouse := Vector2 0.5 0.5;
               uResolution := Vector2 (width app) (height app);
               uTime := 0;
               uHover := 0 |};
     effects := effects app |}.

(** The success callback of [loadTexture]. *)
Definition onTextureLoaded (texture : sampler2D) (app : App) : App :=
  {| width := width app;
     height := height app;
     mouse := mouse app;
     targetMouse := targetMouse app;
     material :=
       match material app with
       | Some u =>
           Some {| uTexture := Some texture;
                   uMouse := uMouse u;
                   uResolution := uResolution u;
                   uTime := uTime u;
                   uHover := uHover u |}
       | None => None
       end;
     effects := effects app |}.

Definition onResize (innerWidth innerHeight : R) (app : App) : App :=
  {| width := innerWidth;
     height := innerHeight;
     mouse := mouse app;
     targetMouse := targetMouse app;
     material :=
       match material app with
       | Some u =>
           Some {| uTexture := uTexture u;
                   uMouse := uMouse u;
                   uResolution :=
                     Vector2Methods.set (uResolution u) innerWidth innerHeight;
                   uTime := uTime u;
                   uHover := uHover u |}
       | None => None
       end;
     effects := RendererSetSize innerWidth innerHeight :: effects app |}.

(** [onMouseMove]; [None] when a quotient is not a real number (a zero
    [width] or [height], where JavaScript stores an infinity or a NaN). *)
Definition onMouseMove (e : MouseEvent) (app : App) : option App :=
  x <- gdiv (clientX e) (width app) ;;
  q <- gdiv (clientY e) (height app) ;;
  let y := 1.0 - q in
  ret {| width := width app;
         height := height app;
         mouse := mouse app;
         targetMouse := Vector2Methods.set (targetMouse app) x y;
         material := material app;
         effects := effects app |}.

(** One tick of the frame loop. *)
Definition animate (app : App) : App :=
  let mouse' := Vector2Methods.lerp (mouse app) (targetMouse app) 0.1 in
  let material' :=
    match material app with
    | Some u =>
        Some {| uTexture := uTexture u;
                uMouse := Vector2Methods.copy (uMouse u) mouse';
                uResolution := uResolution u;
                uTime := uTime u + 0.01;
                uHover := uHover u |}
    | None => None
    end in
  {| width := width app;
     height := height app;
     mouse := mouse';
     targetMouse := targetMouse app;
     material := material';
     effects := RendererRender material' :: RequestAnimationFrame
                  :: effects app |}.

(** The state the constructor leaves behind: the first tick has run and the
    image is still loading. *)
Definition newApp (innerWidth innerHeight : R) : App :=
  animate (createMesh (createRenderer (init innerWidth innerHeight))).

(** [n] ticks in a row, no event in between. *)
Fixpoint ticks (n : nat) (app : App) : App :=
  match n with
  | O => app
  | S k => ticks k (animate app)
  end.

(** ** Reference definitions and scenarios

    What the properties below compare the program with, and the concrete
    states they are evaluated at. *)

(** The aspect-corrected points of line 83, as the text describes them: the
    x-component of a point multiplied by the aspect ratio [k]. *)
Definition aspect_corrected (k : R) (p : vec2) : vec2 :=
  Vector2 (vx p * k) (vy p).

(** The Euclidean distance of two points of the plane. *)
Definition euclidean (p q : vec2) : R :=
  sqrt ((vx p - vx q) ^ 2 + (vy p - vy q) ^ 2).

(** A state still waiting for the image, the pointer target moved to the
    top right corner: material present, [uTexture] null. *)
Definition app_loading : App :=
  {| width := 800;
     height := 600;
     mouse := Vector2 0.5 0.5;
     targetMouse := Vector2 1 1;
     material :=
       Some {| uTexture := None;
               uMouse := Vector2 0.5 0.5;
               uResolution := Vector2 800 600;
               uTime := 0;
               uHover := 0 |};
     effects := [RendererSetSize 800 600] |}.

(** The scenario of the smoothing test: [current = (0,0)], [target = (1,1)]. *)
Definition app_smoothing : App :=
  {| width := 800;
     height := 600;
     mouse := Vector2 0 0;
     targetMouse := Vector2 1 1;
     material := None;
     effects := [] |}.

(** ** Sessions

    Everything that happens to the application after the constructor is one
    of the callbacks it registered: a resize, a pointer move, an animation
    frame, and the success or the failure of the image load.  The failure
    callback only logs to the console. *)

Inductive Event : Type :=
| Resize (innerWidth innerHeight : R)
| MouseMove (e : MouseEvent)
| AnimationFrame
| TextureLoaded (texture : sampler2D)
| TextureError.

Definition handle (ev : Event) (app : App) : option App :=
  match ev with
  | Resize innerWidth innerHeight => ret (onResize innerWidth innerHeight app)
  | MouseMove e => onMouseMove e app
  | AnimationFrame => ret (animate app)
  | TextureLoaded texture => ret (onTextureLoaded texture app)
  | TextureError => ret app
  end.

Fixpoint run (evs : list Event) (app : App) : option App :=
  match evs with
  | [] => ret app
  | ev :: rest => app' <- handle ev app ;; run rest app'
  end.

(** A session in which the viewport keeps a positive size and every pointer
    event lies inside the viewport of its moment. *)
Fixpoint pointerInside (evs : list Event) (w h : R) : Prop :=
  match evs with
  | [] => True
  | Resize w' h' :: rest => 0 < w' /\ 0 < h' /\ pointerInside rest w' h'
  | MouseMove e :: rest =>
      0 <= clientX e <= w /\ 0 <= clientY e <= h /\ pointerInside rest w h
  | _ :: rest => pointerInside rest w h
  end.

Definition inUnitSquare (p : vec2) : Prop :=
  0 <= vx p <= 1 /\ 0 <= vy p <= 1.

(** The resolution and mouse parameters of the material agree with the
    application's own fields. *)
Definition inSync (app : App) : Prop :=
  exists u, material app = Some u /\
            uResolution u = Vector2 (width app) (height app) /\
            uMouse u = mouse app.

(** ** The preloader counter of [setupPreloader]

    The counter is an integer; [Math.random()] is a rational [r] with
    [0 <= r < 1], and [Math.floor(r * 5)] is computed exactly.  [el] is the
    [innerText] of the element with id [counter], [None] when the page has
    no such element. *)

Module Preloader.

Definition Math_floor (x : Q) : Z := Qfloor x.

(** [Number.prototype.toString] on an integer. *)
Definition toString (n : Z) : string := NilZero.string_of_int (Z.to_int n).

(** The first [n] characters of [padString] repeated; [cur] is what is left
    of the current copy. *)
Fixpoint padding (n : nat) (padString cur : string) : string :=
  match n with
  | O => EmptyString
  | S k =>
      match cur with
      | String ch rest => String ch (padding k padString rest)
      | EmptyString =>
          match padString with
          | String ch rest => String ch (padding k padString rest)
          | EmptyString => EmptyString
          end
      end
  end.

(** [String.prototype.padStart] *)
Definition padStart (s : string) (targetLength : nat) (padString : string)
  : string :=
  if (targetLength <=? String.length s)%nat then s
  else (padding (targetLength - String.length s) padString padString ++ s)
         %string.

Record State : Type := mkState {
  count : Z;
  el : option string;
  interval : bool          (* the interval timer is still set *)
}.

(** The text written into the element. *)
Definition counterText (count : Z) : string :=
  ("[" ++ padStart (toString count) 3 "0" ++ "]")%string.

Definition setupPreloader (el : option string) : State :=
  {| count := 0; el := el; interval := true |}.

(** The interval callback, [Math.random()] returning [r]. *)
Definition callback (r : Q) (st : State) : State :=
  let count1 := (count st + Math_floor (r * 5))%Z in
  let count2 := if (100 <? count1)%Z then 100%Z else count1 in
  {| count := count2;
     el := match el st with
           | Some _ => Some (counterText count2)
           | None => None
           end;
     interval := if (count2 =? 100)%Z then false else interval st |}.

(** One period of the timer: the callback runs while the interval is set. *)
Definition fire (r : Q) (st : State) : State :=
  if interval st then callback r st else st.

Fixpoint fires (rs : list Q) (st : State) : State :=
  match rs with
  | [] => st
  | r :: rest => fires rest (fire r st)
  end.

(** The sum of the increments [Math.floor(r * 5)] of a list of draws. *)
Fixpoint increments (rs : list Q) : Z :=
  match rs with
  | [] => 0%Z
  | r :: rest => (Math_floor (r * 5) + increments rest)%Z
  end.

Definition unitDraw (r : Q) : Prop := (0 <= r)%Q /\ (r < 1)%Q.

(** The callback again, with the increment [Math.floor(Math.random() * 5)]
    itself as the argument: whatever rounding the product undergoes, the
    increment is an integer. *)
Definition advance (k : Z) (st : State) : State :=
  let count1 := (count st + k)%Z in
  let count2 := if (100 <? count1)%Z then 100%Z else count1 in
  {| count := count2;
     el := match el st with
           | Some _ => Some (counterText count2)
           | None => None
           end;
     interval := if (count2 =? 100)%Z then false else interval st |}.

Fixpoint advances (ks : list Z) (st : State) : State :=
  match ks with
  | [] => st
  | k :: rest => advances rest (if interval st then advance k st else st)
  end.

Fixpoint total (ks : list Z) : Z :=
  match ks with
  | [] => 0%Z
  | k :: rest => (k + total rest)%Z
  end.

(** Reading a counter text back: three decimal digits in brackets. *)
Definition readCounter (s : string) : option Z :=
  match s with
  | String "["%char
      (String d1 (String d2 (String d3 (String "]"%char EmptyString)))) =>
      option_map Z.of_int
        (NilZero.int_of_string
           (String d1 (String d2 (String d3 EmptyString))))
  | _ => None
  end.

(** What holds of the counter between two periods of the timer. *)
Definition wellFormed (st : State) : Prop :=
  (0 <= count st <= 100)%Z /\
  interval st = negb (count st =? 100)%Z.

End Preloader.

(** ** Rounded arithmetic

    Where a property depends on rounding, numbers are IEEE 754 values with
    every operation rounded to nearest, ties to even: binary64 for the
    JavaScript numbers, binary32 for the [float]s of the shader. *)

Module IEEE.

Section Format.

Variables prec emax : Z.

Definition ofZ (z : Z) : spec_float := binary_normalize prec emax z 0 false.

(** The value a decimal literal [num / den] denotes ([den] a power of ten):
    the one nearest to the quotient. *)
Definition dec (num den : Z) : spec_float :=
  SFdiv prec emax (ofZ num) (ofZ den).

End Format.



End IEEE.

Record fvec2 : Type := FVector2 { fx : spec_float; fy : spec_float }.

(** ** The lens mask in binary32 *)

Module Binary32.

Definition add := SFadd 24 128.
Definition sub := SFsub 24 128.
Definition mul := SFmul 24 128.
Definition div := SFdiv 24 128.
Definition sqrt := SFsqrt 24 128.
Definition dec := IEEE.dec 24 128.

(** GLSL [min(x, y)] is [y] if [y < x], else [x]; [max(x, y)] is [y] if
    [x < y], else [x]. *)
Definition min (x y : spec_float) : spec_float := if SFltb y x then y else x.
Definition max (x y : spec_float) : spec_float := if SFltb x y then y else x.
Definition clamp (x minVal maxVal : spec_float) : spec_float :=
  min (max x minVal) maxVal.

Definition smoothstep (edge0 edge1 x : spec_float) : spec_float :=
  let t := clamp (div (sub x edge0) (sub edge1 edge0)) (dec 0 1) (dec 1 1) in
  mul (mul t t) (sub (dec 3 1) (mul (dec 2 1) t)).

Definition length (p : fvec2) : spec_float :=
  sqrt (add (mul (fx p) (fx p)) (mul (fy p) (fy p))).

Definition distance (p0 p1 : fvec2) : spec_float :=
  length (FVector2 (sub (fx p0) (fx p1)) (sub (fy p0) (fy p1))).

(** [float lensSize = 0.4] *)
Definition lensSize : spec_float := dec 4 10.

(** lines 79-83 *)
Definition main_dist (uResolution uMouse uv : fvec2) : spec_float :=
  let aspect := FVector2 (div (fx uResolution) (fy uResolution)) (dec 1 1) in
  let mousePos := uMouse in
  distance (FVector2 (mul (fx uv) (fx aspect)) (mul (fy uv) (fy aspect)))
           (FVector2 (mul (fx mousePos) (fx aspect))
                     (mul (fy mousePos) (fy aspect))).

(** line 86 *)
Definition main_lensMask (dist : spec_float) : spec_float :=
  sub (dec 1 1) (smoothstep (mul lensSize (dec 8 10)) lensSize dist).


End Binary32.

(** ** The application object in binary64

    The same methods as above on JavaScript's own numbers.  Division by
    zero yields an infinity or a NaN, which is stored like any other
    number, so every handler is total. *)

Module Binary64.

Definition add := SFadd 53 1024.
Definition sub := SFsub 53 1024.
Definition mul := SFmul 53 1024.
Definition div := SFdiv 53 1024.
Definition dec := IEEE.dec 53 1024.

(** [Math.min] of two numbers. *)
Definition Math_min (p q : spec_float) : spec_float :=
  match p, q with
  | S754_nan, _ | _, S754_nan => S754_nan
  | S754_zero sp, S754_zero sq => S754_zero (sp || sq)
  | _, _ => if SFltb q p then q else p
  end.

Definition set (_ : fvec2) (x y : spec_float) : fvec2 := FVector2 x y.

Definition copy (_ v : fvec2) : fvec2 := FVector2 (fx v) (fy v).

Definition lerp (this v : fvec2) (alpha : spec_float) : fvec2 :=
  FVector2 (add (fx this) (mul (sub (fx v) (fx this)) alpha))
           (add (fy this) (mul (sub (fy v) (fy this)) alpha)).

Record Uniforms : Type := mkUniforms {
  uTexture : option sampler2D;
  uMouse : fvec2;
  uResolution : fvec2;
  uTime : spec_float;
  uHover : spec_float
}.

(** The calls the application itself makes on the browser and on the
    renderer. *)
Inductive Effect : Type :=
| RequestAnimationFrame
| RendererSetSize (w h : spec_float)
| RendererSetPixelRatio (ratio : spec_float)
| RendererRender (u : option Uniforms).

Record App : Type := mkApp {
  width : spec_float;
  height : spec_float;
  mouse : fvec2;
  targetMouse : fvec2;
  material : option Uniforms;
  effects : list Effect          (* most recent first *)
}.

Record MouseEvent : Type := mkMouseEvent {
  clientX : spec_float;
  clientY : spec_float
}.

Definition init (innerWidth innerHeight : spec_float) : App :=
  {| width := innerWidth;
     height := innerHeight;
     mouse := FVector2 (dec 5 10) (dec 5 10);
     targetMouse := FVector2 (dec 5 10) (dec 5 10);
     material := None;
     effects := [] |}.

Definition createRenderer (devicePixelRatio : spec_float) (app : App) : App :=
  {| width := width app;
     height := height app;
     mouse := mouse app;
     targetMouse := targetMouse app;
     material := material app;
     effects :=
       RendererSetPixelRatio (Math_min devicePixelRatio (dec 2 1))
         :: RendererSetSize (width app) (height app) :: effects app |}.

Definition createMesh (app : App) : App :=
  {| width := width app;
     height := height app;
     mouse := mouse app;
     targetMouse := targetMouse app;
     material :=
       Some {| uTexture := None;
               uMouse := FVector2 (dec 5 10) (dec 5 10);
               uResolution := FVector2 (width app) (height app);
               uTime := dec 0 1;
               uHover := dec 0 1 |};
     effects := effects app |}.

Definition onTextureLoaded (texture : sampler2D) (app : App) : App :=
  {| width := width app;
     height := height app;
     mouse := mouse app;
     targetMouse := targetMouse app;
     material :=
       match material app with
       | Some u =>
           Some {| uTexture := Some texture;
                   uMouse := uMouse u;
                   uResolution := uResolution u;
                   uTime := uTime u;
                   uHover := uHover u |}
       | None => None
       end;
     effects := effects app |}.

Definition onResize (innerWidth innerHeight : spec_float) (app : App) : App :=
  {| width := innerWidth;
     height := innerHeight;
     mouse := mouse app;
     targetMouse := targetMouse app;
     material :=
       match material app with
       | Some u =>
           Some {| uTexture := uTexture u;
                   uMouse := uMouse u;
                   uResolution := set (uResolution u) innerWidth innerHeight;
                   uTime := uTime u;
                   uHover := uHover u |}
       | None => None
       end;
     effects := RendererSetSize innerWidth innerHeight :: effects app |}.

Definition onMouseMove (e : MouseEvent) (app : App) : App :=
  let x := div (clientX e) (width app) in
  let y := sub (dec 1 1) (div (clientY e) (height app)) in
  {| width := width app;
     height := height app;
     mouse := mouse app;
     targetMouse := set (targetMouse app) x y;
     material := material app;
     effects := effects app |}.

Definition animate (app : App) : App :=
  let mouse' := lerp (mouse app) (targetMouse app) (dec 1 10) in
  let material' :=
    match material app with
    | Some u =>
        Some {| uTexture := uTexture u;
                uMouse := copy (uMouse u) mouse';
                uResolution := uResolution u;
                uTime := add (uTime u) (dec 1 100);
                uHover := uHover u |}
    | None => None
    end in
  {| width := width app;
     height := height app;
     mouse := mouse';
     targetMouse := targetMouse app;
     material := material';
     effects := RendererRender material' :: RequestAnimationFrame
                  :: effects app |}.

(** The state the constructor leaves behind. *)
Definition newApp (innerWidth innerHeight devicePixelRatio : spec_float)
  : App :=
  animate (createMesh (createRenderer devicePixelRatio
                         (init innerWidth innerHeight))).

Fixpoint ticks (n : nat) (app : App) : App :=
  match n with
  | O => app
  | S k => ticks k (animate app)
  end.

Inductive Event : Type :=
| Resize (innerWidth innerHeight : spec_float)
| MouseMove (e : MouseEvent)
| AnimationFrame
| TextureLoaded (texture : sampler2D)
| TextureError.

Definition handle (ev : Event) (app : App) : App :=
  match ev with
  | Resize innerWidth innerHeight => onResize innerWidth innerHeight app
  | MouseMove e => onMouseMove e app
  | AnimationFrame => animate app
  | TextureLoaded texture => onTextureLoaded texture app
  | TextureError => app
  end.

Fixpoint run (evs : list Event) (app : App) : App :=
  match evs with
  | [] => app
  | ev :: rest => run rest (handle ev app)
  end.

Fixpoint frames (evs : list Event) : nat :=
  match evs with
  | [] => O
  | AnimationFrame :: rest => S (frames rest)
  | _ :: rest => frames rest
  end.

Fixpoint resizes (evs : list Event) : nat :=
  match evs with
  | [] => O
  | Resize _ _ :: rest => S (resizes rest)
  | _ :: rest => resizes rest
  end.

(** The last texture a session installed, if any. *)
Fixpoint lastTexture (evs : list Event) (acc : option sampler2D)
  : option sampler2D :=
  match evs with
  | [] => acc
  | TextureLoaded texture :: rest => lastTexture rest (Some texture)
  | _ :: rest => lastTexture rest acc
  end.

(** Counting in the effect log. *)
Fixpoint requested (log : list Effect) : nat :=
  match log with
  | [] => O
  | RequestAnimationFrame :: rest => S (requested rest)
  | _ :: rest => requested rest
  end.

Fixpoint rendered (log : list Effect) : nat :=
  match log with
  | [] => O
  | RendererRender _ :: rest => S (rendered rest)
  | _ :: rest => rendered rest
  end.

Fixpoint sized (log : list Effect) : nat :=
  match log with
  | [] => O
  | RendererSetSize _ _ :: rest => S (sized rest)
  | _ :: rest => sized rest
  end.

(** [n] additions of [0.01], the first one to [0]. *)
Fixpoint timeAfter (n : nat) : spec_float :=
  match n with
  | O => dec 0 1
  | S k => add (timeAfter k) (dec 1 100)
  end.

(** The smoothing scenario: [current = (0,0)], [target = (1,1)]. *)
Definition app_smoothing : App :=
  {| width := dec 800 1;
     height := dec 600 1;
     mouse := FVector2 (dec 0 1) (dec 0 1);
     targetMouse := FVector2 (dec 1 1) (dec 1 1);
     material := None;
     effects := [] |}.



(** The resolution and mouse parameters of the material are the
    application's own fields. *)
Definition inSync (app : App) : Prop :=
  exists u, material app = Some u /\
            uResolution u = FVector2 (width app) (height app) /\
            uMouse u = mouse app.



End Binary64.

(** * Properties *)

(** ** Guarded arithmetic *)

Lemma gdiv_some (p q : R) : q <> 0 -> gdiv p q = Some (p / q).
Proof.
  intros Hq. unfold gdiv.
  destruct (Req_dec_T q 0) as [E | _]; [contradiction | reflexivity].
Qed.

Lemma gdiv_zero (p : R) : gdiv p 0 = None.
Proof.
  unfold gdiv.
  destruct (Req_dec_T 0 0) as [_ | N]; [reflexivity | now elim N].
Qed.

Lemma gdiv_none_iff (p q : R) : gdiv p q = None <-> q = 0.
Proof.
  unfold gdiv. destruct (Req_dec_T q 0) as [E | N]; split; intros H;
    try reflexivity; try assumption; try discriminate; contradiction.
Qed.

Lemma vec2_eq (p q : vec2) : vx p = vx q -> vy p = vy q -> p = q.
Proof. destruct p, q; simpl; intros -> ->; reflexivity. Qed.

Module GLSLFacts.

Lemma dot_self_nonneg (p : vec2) : 0 <= GLSL.dot p p.
Proof. unfold GLSL.dot. nra. Qed.

Lemma length_nonneg (p : vec2) : 0 <= GLSL.length p.
Proof. unfold GLSL.length. apply sqrt_pos. Qed.

Lemma distance_nonneg (p q : vec2) : 0 <= GLSL.distance p q.
Proof. unfold GLSL.distance. apply length_nonneg. Qed.

Lemma length_zero_iff (p : vec2) : GLSL.length p = 0 <-> vx p = 0 /\ vy p = 0.
Proof.
  unfold GLSL.length. split.
  - intros H. apply sqrt_eq_0 in H; [| apply dot_self_nonneg].
    unfold GLSL.dot in H. split; nra.
  - intros [Hx Hy]. unfold GLSL.dot. rewrite Hx, Hy.
    replace (0 * 0 + 0 * 0) with 0 by ring. apply sqrt_0.
Qed.

Lemma vsub_zero_iff (p q : vec2) :
  (vx (vsub p q) = 0 /\ vy (vsub p q) = 0) <-> p = q.
Proof.
  split.
  - simpl. intros [Hx Hy]. apply vec2_eq; lra.
  - intros ->. simpl. split; ring.
Qed.

Lemma distance_self (p : vec2) : GLSL.distance p p = 0.
Proof.
  unfold GLSL.distance. apply length_zero_iff. apply vsub_zero_iff. reflexivity.
Qed.

Lemma normalize_some (v : vec2) :
  GLSL.length v <> 0 ->
  GLSL.normalize v =
  Some (Vector2 (vx v / GLSL.length v) (vy v / GLSL.length v)).
Proof.
  intros H. unfold GLSL.normalize.
  rewrite !gdiv_some by assumption. reflexivity.
Qed.

Lemma normalize_none_iff (v : vec2) :
  GLSL.normalize v = None <-> GLSL.length v = 0.
Proof.
  unfold GLSL.normalize. split.
  - intros H. destruct (Req_dec_T (GLSL.length v) 0) as [E | N]; [assumption |].
    rewrite !gdiv_some in H by assumption. discriminate.
  - intros ->. rewrite gdiv_zero. reflexivity.
Qed.

(** The direction [normalize(uv - mousePos)] is undefined exactly at the
    lens centre. *)
Lemma normalize_vsub_none_iff (uv mousePos : vec2) :
  GLSL.normalize (vsub uv mousePos) = None <-> uv = mousePos.
Proof.
  rewrite normalize_none_iff, length_zero_iff. apply vsub_zero_iff.
Qed.

Lemma clamp_below (x : R) : x <= 0 -> GLSL.clamp x 0 1 = 0.
Proof.
  intros H. unfold GLSL.clamp. rewrite Rmax_right by assumption.
  apply Rmin_left; lra.
Qed.

Lemma clamp_above (x : R) : 1 <= x -> GLSL.clamp x 0 1 = 1.
Proof.
  intros H. unfold GLSL.clamp. rewrite Rmax_left by lra.
  apply Rmin_right; assumption.
Qed.


Lemma smoothstep_some (e0 e1 x : R) :
  e0 < e1 ->
  GLSL.smoothstep e0 e1 x =
  Some (let t := GLSL.clamp ((x - e0) / (e1 - e0)) 0 1 in t * t * (3 - 2 * t)).
Proof.
  intros H. unfold GLSL.smoothstep.
  destruct (Rlt_dec e0 e1) as [_ | N]; [| contradiction].
  rewrite gdiv_some by lra. reflexivity.
Qed.

Lemma smoothstep_none (e0 e1 x : R) :
  e1 <= e0 -> GLSL.smoothstep e0 e1 x = None.
Proof.
  intros H. unfold GLSL.smoothstep.
  destruct (Rlt_dec e0 e1) as [L | _]; [lra | reflexivity].
Qed.

Lemma pow_defined (x y : R) :
  0 <= x -> 0 < y -> exists p, GLSL.pow x y = Some p.
Proof.
  intros Hx Hy. unfold GLSL.pow.
  destruct (Rlt_dec x 0) as [L | _]; [lra |].
  destruct (Req_dec_T x 0) as [_ | _].
  - destruct (Rlt_dec 0 y) as [_ | N]; [eauto | contradiction].
  - eauto.
Qed.

End GLSLFacts.

(** ** The stages of the fragment shader *)

Module FragmentFacts.

Import Fragment GLSLFacts.

Lemma main_dist_some (uResolution uMouse uv : vec2) :
  vy uResolution <> 0 ->
  main_dist uResolution uMouse uv =
  Some (GLSL.distance
          (vmul uv (Vector2 (vx uResolution / vy uResolution) 1.0))
          (vmul uMouse (Vector2 (vx uResolution / vy uResolution) 1.0))).
Proof.
  intros H. unfold main_dist. rewrite gdiv_some by assumption. reflexivity.
Qed.

Lemma main_dist_nonneg (uResolution uMouse uv : vec2) (d : R) :
  main_dist uResolution uMouse uv = Some d -> 0 <= d.
Proof.
  unfold main_dist.
  destruct (gdiv (vx uResolution) (vy uResolution)) as [ax |]; simpl;
    [| discriminate].
  intros [= <-]. apply distance_nonneg.
Qed.

Lemma distance_euclidean (p q : vec2) : GLSL.distance p q = euclidean p q.
Proof.
  unfold GLSL.distance, GLSL.length, GLSL.dot, euclidean. simpl.
  f_equal. ring.
Qed.

Lemma main_lensMask_some (c : Config) (d : R) :
  0 < lensSize c ->
  main_lensMask c d =
  Some (1 - (let t := GLSL.clamp ((d - lensSize c * 0.8)
                                  / (lensSize c - lensSize c * 0.8)) 0 1 in
             t * t * (3 - 2 * t))).
Proof.
  intros H. unfold main_lensMask. rewrite smoothstep_some by lra.
  simpl. unfold ret. f_equal. lra.
Qed.

Lemma main_lensMask_inner (c : Config) (d : R) :
  0 < lensSize c -> d <= 0.8 * lensSize c -> main_lensMask c d = Some 1.
Proof.
  intros HL Hd. rewrite main_lensMask_some by assumption.
  rewrite clamp_below.
  - simpl. f_equal. ring.
  - apply Rmult_le_reg_r with (lensSize c - lensSize c * 0.8); [lra |].
    unfold Rdiv. rewrite Rmult_assoc, Rinv_l by lra. lra.
Qed.

Lemma main_lensMask_outer (c : Config) (d : R) :
  0 < lensSize c -> lensSize c <= d -> main_lensMask c d = Some 0.
Proof.
  intros HL Hd. rewrite main_lensMask_some by assumption.
  rewrite clamp_above.
  - simpl. f_equal. ring.
  - apply Rmult_le_reg_r with (lensSize c - lensSize c * 0.8); [lra |].
    unfold Rdiv. rewrite Rmult_assoc, Rinv_l by lra. lra.
Qed.


Lemma cubic_strictly_increasing (s t : R) :
  0 <= s -> s < t -> t <= 1 ->
  s * s * (3 - 2 * s) < t * t * (3 - 2 * t).
Proof.
  intros Hs Hst Ht.
  assert (E : t * t * (3 - 2 * t) - s * s * (3 - 2 * s)
              = (t - s) * (s * (3 - 2 * s - t) + t * (3 - 2 * t - s)))
    by ring.
  assert (P : 0 < s * (3 - 2 * s - t) + t * (3 - 2 * t - s)).
  { assert (0 <= s * (3 - 2 * s - t)) by (apply Rmult_le_pos; lra).
    assert (0 < t * (3 - 2 * t - s)) by (apply Rmult_lt_0_compat; lra).
    lra. }
  assert (0 < (t - s) * (s * (3 - 2 * s - t) + t * (3 - 2 * t - s)))
    by (apply Rmult_lt_0_compat; lra).
  lra.
Qed.

Lemma main_aberration_some (c : Config) (m d : R) :
  lensSize c <> 0 ->
  main_aberration c m d = Some (m * aberrationStrength c * (d / lensSize c)).
Proof.
  intros H. unfold main_aberration. rewrite gdiv_some by assumption.
  reflexivity.
Qed.

Lemma main_distortedUv_outside (c : Config) (uMouse uv : vec2) (d : R) :
  lensSize c <= d -> main_distortedUv c uMouse uv d = Some uv.
Proof.
  intros H. unfold main_distortedUv.
  destruct (Rlt_dec d (lensSize c)) as [L | _]; [lra | reflexivity].
Qed.

Lemma main_intro (c : Config) (uTexture : sampler2D)
    (uResolution uMouse vUv : vec2) (d m ab : R) (du : vec2) :
  main_dist uResolution uMouse vUv = Some d ->
  main_lensMask c d = Some m ->
  main_distortedUv c uMouse vUv d = Some du ->
  main_aberration c m d = Some ab ->
  main c uTexture uResolution uMouse vUv =
  Some (mkFrag d m du ab (main_color uTexture du ab)).
Proof.
  intros Hd Hm Hdu Hab. unfold main.
  rewrite Hd; cbn [bind]. rewrite Hm; cbn [bind].
  rewrite Hdu; cbn [bind]. rewrite Hab. reflexivity.
Qed.

Lemma main_inv (c : Config) (uTexture : sampler2D)
    (uResolution uMouse vUv : vec2) (f : Frag) :
  main c uTexture uResolution uMouse vUv = Some f ->
  main_dist uResolution uMouse vUv = Some (dist f) /\
  main_lensMask c (dist f) = Some (lensMask f) /\
  main_distortedUv c uMouse vUv (dist f) = Some (distortedUv f) /\
  main_aberration c (lensMask f) (dist f) = Some (aberration f) /\
  gl_FragColor f = main_color uTexture (distortedUv f) (aberration f).
Proof.
  unfold main.
  destruct (main_dist uResolution uMouse vUv) as [d |]; cbn [bind];
    [| discriminate].
  destruct (main_lensMask c d) as [m |] eqn:Hm; cbn [bind]; [| discriminate].
  destruct (main_distortedUv c uMouse vUv d) as [du |] eqn:Hdu; cbn [bind];
    [| discriminate].
  destruct (main_aberration c m d) as [ab |] eqn:Hab; cbn [bind];
    [| discriminate].
  intros [= <-]. cbn [dist lensMask distortedUv aberration gl_FragColor].
  repeat split; assumption.
Qed.

(** A fragment outside the lens, traced through every stage: resolution
    [(2,1)], pointer at [(0,0.5)], fragment at [(0.5,0.5)]. *)
Lemma main_dist_wide :
  main_dist (Vector2 2 1) (Vector2 0 0.5) (Vector2 0.5 0.5) = Some 1.
Proof.
  rewrite main_dist_some by (simpl; lra).
  rewrite distance_euclidean. unfold euclidean.
  match goal with
  | |- Some (sqrt ?e) = _ => replace e with 1 by (simpl; lra)
  end.
  now rewrite sqrt_1.
Qed.

Lemma main_wide (uTexture : sampler2D) :
  main CONFIG uTexture (Vector2 2 1) (Vector2 0 0.5) (Vector2 0.5 0.5) =
  Some (mkFrag 1 0 (Vector2 0.5 0.5) 0
          (main_color uTexture (Vector2 0.5 0.5) 0)).
Proof.
  apply main_intro.
  - exact main_dist_wide.
  - apply main_lensMask_outer; simpl; lra.
  - apply main_distortedUv_outside; simpl; lra.
  - rewrite main_aberration_some by (simpl; lra). f_equal. simpl. lra.
Qed.

(** Inside the lens, with a positive bulge, the [displacement] statement
    always yields a value, so deleting it changes nothing. *)
Lemma main_distortedUv_nodisp_eq (c : Config) (uMouse uv : vec2) (d : R) :
  0 <= d -> 0 < lensBulge c ->
  main_distortedUv c uMouse uv d = main_distortedUv_nodisp c uMouse uv d.
Proof.
  intros Hd Hb. unfold main_distortedUv, main_distortedUv_nodisp.
  destruct (Rlt_dec d (lensSize c)) as [L | _]; [| reflexivity].
  rewrite gdiv_some by lra. cbn [bind].
  destruct (pow_defined (d / lensSize c) (lensBulge c)) as [p ->].
  - apply Rmult_le_pos; [exact Hd |].
    apply Rlt_le, Rinv_0_lt_compat. lra.
  - exact Hb.
  - reflexivity.
Qed.

Lemma main_nodisp_eq (c : Config) (uTexture : sampler2D)
    (uResolution uMouse vUv : vec2) :
  0 < lensBulge c ->
  main c uTexture uResolution uMouse vUv =
  main_nodisp c uTexture uResolution uMouse vUv.
Proof.
  intros Hb. unfold main, main_nodisp.
  destruct (main_dist uResolution uMouse vUv) as [d |] eqn:Hd; cbn [bind];
    [| reflexivity].
  apply main_dist_nonneg in Hd.
  destruct (main_lensMask c d) as [m |]; cbn [bind]; [| reflexivity].
  rewrite main_distortedUv_nodisp_eq by assumption. reflexivity.
Qed.

Lemma main_distortedUv_inside (c : Config) (uMouse uv : vec2) (d : R) :
  0 <= d -> d < lensSize c -> 0 < lensBulge c -> uv <> uMouse ->
  exists dir,
    GLSL.normalize (vsub uv uMouse) = Some dir /\
    main_distortedUv c uMouse uv d =
    Some (vadd uMouse (vscale dir (d * (1.0 - lensBulge c * 0.5)))).
Proof.
  intros Hd Hin Hb Hne.
  rewrite main_distortedUv_nodisp_eq by assumption.
  unfold main_distortedUv_nodisp.
  destruct (Rlt_dec d (lensSize c)) as [_ | N]; [| contradiction].
  destruct (GLSL.normalize (vsub uv uMouse)) as [dir |] eqn:E.
  - exists dir. split; reflexivity.
  - apply normalize_vsub_none_iff in E. contradiction.
Qed.

Lemma main_defined (c : Config) (uTexture : sampler2D)
    (uResolution uMouse uv : vec2) :
  0 < lensSize c -> 0 < lensBulge c -> vy uResolution <> 0 -> uv <> uMouse ->
  exists f, main c uTexture uResolution uMouse uv = Some f.
Proof.
  intros HL Hb Hres Hne.
  pose proof (main_dist_some uResolution uMouse uv Hres) as Hd.
  pose proof (main_dist_nonneg _ _ _ _ Hd) as Hd0.
  set (d := GLSL.distance _ _) in *.
  assert (Hdu : exists du, main_distortedUv c uMouse uv d = Some du).
  { destruct (Rlt_dec d (lensSize c)) as [Hin | Hout].
    - destruct (main_distortedUv_inside c uMouse uv d) as (dir & _ & E);
        try assumption.
      eauto.
    - exists uv. apply main_distortedUv_outside. lra. }
  destruct Hdu as [du Hdu].
  eexists. apply main_intro.
  - exact Hd.
  - apply main_lensMask_some. exact HL.
  - exact Hdu.
  - apply main_aberration_some. lra.
Qed.

End FragmentFacts.

(** ** The lens transform *)

Module LensTransform.

Import Fragment GLSLFacts FragmentFacts.

(** C4.  Whenever the aspect-corrected distance is at least [lensSize], the
    sampling coordinate is the input coordinate: the distortion stage returns
    [uv] whatever the pointer position, and every fragment [main] produces
    with [lensSize <= dist] has [distortedUv = uv]. *)
Theorem distortion_identity_outside_lens :
  (forall (c : Config) (uMouse uv : vec2) (d : R),
      lensSize c <= d -> main_distortedUv c uMouse uv d = Some uv) /\
  (forall (c : Config) (uTexture : sampler2D) (uResolution uMouse uv : vec2)
          (f : Frag),
      main c uTexture uResolution uMouse uv = Some f ->
      lensSize c <= dist f ->
      distortedUv f = uv) /\
  (forall (c : Config) (uTexture : sampler2D) (uResolution uMouse uv : vec2)
          (d : R),
      0 < lensSize c ->
      main_dist uResolution uMouse uv = Some d ->
      lensSize c <= d ->
      exists f, main c uTexture uResolution uMouse uv = Some f /\
                dist f = d /\ distortedUv f = uv).
Proof.
  split; [| split].
  - exact main_distortedUv_outside.
  - intros c uTexture uResolution uMouse uv f Hmain Hd.
    apply main_inv in Hmain. destruct Hmain as (_ & _ & Hdu & _).
    rewrite main_distortedUv_outside in Hdu by assumption.
    now injection Hdu.
  - intros c uTexture uResolution uMouse uv d HL Hd Hout.
    eexists. split.
    + apply main_intro; [exact Hd | | |].
      * apply main_lensMask_outer; assumption.
      * apply main_distortedUv_outside; assumption.
      * apply main_aberration_some. lra.
    + split; reflexivity.
Qed.

Lemma distortion_identity_outside_lens_witness :
  main_distortedUv CONFIG (Vector2 0 0.5) (Vector2 0.5 0.5) 1
    = Some (Vector2 0.5 0.5) /\
  distortedUv (mkFrag 1 0 (Vector2 0.5 0.5) 0
                 (main_color (fun _ => Vector4 0 0 0 1) (Vector2 0.5 0.5) 0))
    = Vector2 0.5 0.5 /\
  (exists f, main CONFIG (fun _ => Vector4 0 0 0 1) (Vector2 2 1)
               (Vector2 0 0.5) (Vector2 0.5 0.5) = Some f /\
             dist f = 1 /\ distortedUv f = Vector2 0.5 0.5).
Proof.
  split; [| split].
  - apply (proj1 distortion_identity_outside_lens). simpl. lra.
  - apply (proj1 (proj2 distortion_identity_outside_lens) CONFIG
             (fun _ => Vector4 0 0 0 1) (Vector2 2 1) (Vector2 0 0.5)).
    + apply main_wide.
    + simpl. lra.
  - apply (proj2 (proj2 distortion_identity_outside_lens)).
    + simpl. lra.
    + exact main_dist_wide.
    + simpl. lra.
Defined.

(** C6.  The aberration offset is 0 at the lens centre, whatever the
    aberration strength (and whatever the mask), and 0 for every distance
    from [lensSize] on, where the mask is 0. *)
Theorem aberration_zero_centre_and_outside (c : Config) :
  0 < lensSize c ->
  (forall m, main_aberration c m 0 = Some 0) /\
  (forall d, lensSize c <= d ->
     (m <- main_lensMask c d ;; main_aberration c m d) = Some 0) /\
  (forall (uTexture : sampler2D) (uResolution uMouse uv : vec2) (f : Frag),
     main c uTexture uResolution uMouse uv = Some f ->
     dist f = 0 \/ lensSize c <= dist f ->
     aberration f = 0).
Proof.
  intros HL.
  assert (Hc : forall m, main_aberration c m 0 = Some 0).
  { intros m. rewrite main_aberration_some by lra. f_equal.
    unfold Rdiv. ring. }
  assert (Ho : forall d, lensSize c <= d ->
             main_lensMask c d = Some 0 /\ main_aberration c 0 d = Some 0).
  { intros d Hd. split.
    - apply main_lensMask_outer; assumption.
    - rewrite main_aberration_some by lra. f_equal. ring. }
  split; [exact Hc | split].
  - intros d Hd. destruct (Ho d Hd) as [E1 E2]. rewrite E1. exact E2.
  - intros uTexture uResolution uMouse uv f Hmain Hcase.
    apply main_inv in Hmain. destruct Hmain as (_ & Hm & _ & Hab & _).
    destruct Hcase as [H0 | Hd].
    + rewrite H0, Hc in Hab. now injection Hab.
    + destruct (Ho _ Hd) as [E1 E2]. rewrite E1 in Hm.
      injection Hm as Hm. rewrite <- Hm, E2 in Hab. now injection Hab.
Qed.

Lemma aberration_zero_centre_and_outside_witness :
  (forall m, main_aberration CONFIG m 0 = Some 0) /\
  (forall d, lensSize CONFIG <= d ->
     (m <- main_lensMask CONFIG d ;; main_aberration CONFIG m d) = Some 0) /\
  aberration (mkFrag 1 0 (Vector2 0.5 0.5) 0
                (main_color (fun _ => Vector4 0 0 0 1) (Vector2 0.5 0.5) 0))
    = 0.
Proof.
  assert (HL : 0 < lensSize CONFIG) by (simpl; lra).
  destruct (aberration_zero_centre_and_outside CONFIG HL) as (Hc & Ho & Hm).
  split; [exact Hc | split; [exact Ho |]].
  apply (Hm (fun _ => Vector4 0 0 0 1) (Vector2 2 1) (Vector2 0 0.5)
            (Vector2 0.5 0.5)).
  - apply main_wide.
  - right. simpl. lra.
Defined.

(** C7.  The distance the lens transform uses is the Euclidean distance of
    [uv] and [mouse] after the x-component of each is multiplied by
    [resolution.x / resolution.y]: that is what line 83 computes, it is the
    [dist] of every fragment [main] yields, and the mask, the branch and the
    aberration of that fragment are computed from it.  For resolution
    [(2,1)], [uv = (0.5,0.5)] and [mouse = (0,0.5)] the fragment has
    [dist = 1], not 0.5. *)
Theorem aspect_corrected_distance :
  (forall uResolution uMouse uv : vec2,
     vy uResolution <> 0 ->
     main_dist uResolution uMouse uv =
     Some (euclidean
             (aspect_corrected (vx uResolution / vy uResolution) uv)
             (aspect_corrected (vx uResolution / vy uResolution) uMouse))) /\
  (forall (c : Config) (uTexture : sampler2D) (uResolution uMouse uv : vec2)
          (f : Frag),
     main c uTexture uResolution uMouse uv = Some f ->
     dist f =
       euclidean (aspect_corrected (vx uResolution / vy uResolution) uv)
                 (aspect_corrected (vx uResolution / vy uResolution) uMouse)
     /\ main_lensMask c (dist f) = Some (lensMask f)
     /\ main_distortedUv c uMouse uv (dist f) = Some (distortedUv f)
     /\ main_aberration c (lensMask f) (dist f) = Some (aberration f)) /\
  (forall uTexture : sampler2D,
     exists f,
       main CONFIG uTexture (Vector2 2 1) (Vector2 0.0 0.5) (Vector2 0.5 0.5)
         = Some f /\
       dist f = 1.0 /\ dist f <> 0.5) /\
  main_dist (Vector2 2 1) (Vector2 0.0 0.5) (Vector2 0.5 0.5) = Some 1.0 /\
  main_dist (Vector2 2 1) (Vector2 0.0 0.5) (Vector2 0.5 0.5) <> Some 0.5.
Proof.
  assert (E : main_dist (Vector2 2 1) (Vector2 0.0 0.5) (Vector2 0.5 0.5)
              = Some 1).
  { replace 0.0 with 0 by lra. exact main_dist_wide. }
  assert (G : forall uResolution uMouse uv : vec2,
            vy uResolution <> 0 ->
            main_dist uResolution uMouse uv =
            Some (euclidean
                    (aspect_corrected (vx uResolution / vy uResolution) uv)
                    (aspect_corrected (vx uResolution / vy uResolution)
                       uMouse))).
  { intros uResolution uMouse uv H.
    rewrite main_dist_some by assumption. rewrite distance_euclidean.
    unfold euclidean, aspect_corrected. simpl. f_equal. f_equal. lra. }
  split; [exact G | split; [| split; [| split]]].
  - intros c uTexture uResolution uMouse uv f Hmain.
    apply main_inv in Hmain. destruct Hmain as (Hd & Hm & Hdu & Hab & _).
    split; [| split; [exact Hm | split; [exact Hdu | exact Hab]]].
    destruct (Req_dec_T (vy uResolution) 0) as [Z | N].
    + unfold main_dist in Hd. rewrite Z, gdiv_zero in Hd. discriminate.
    + rewrite (G _ _ _ N) in Hd. now injection Hd.
  - intros uTexture. eexists. split.
    + replace 0.0 with 0 by lra. apply main_wide.
    + cbn [dist]. split; lra.
  - rewrite E. f_equal. lra.
  - rewrite E. intros [= H]. lra.
Qed.

Lemma aspect_corrected_distance_witness :
  main_dist (Vector2 2 1) (Vector2 0 0.5) (Vector2 0.5 0.5) =
    Some (euclidean (aspect_corrected (2 / 1) (Vector2 0.5 0.5))
                    (aspect_corrected (2 / 1) (Vector2 0 0.5))) /\
  dist (mkFrag 1 0 (Vector2 0.5 0.5) 0
          (main_color (fun _ => Vector4 0 0 0 1) (Vector2 0.5 0.5) 0)) =
    euclidean (aspect_corrected (2 / 1) (Vector2 0.5 0.5))
              (aspect_corrected (2 / 1) (Vector2 0 0.5)).
Proof.
  split.
  - apply (proj1 aspect_corrected_distance (Vector2 2 1)). simpl. lra.
  - apply (proj1 (proj2 aspect_corrected_distance) CONFIG
             (fun _ => Vector4 0 0 0 1) (Vector2 2 1) (Vector2 0 0.5)
             (Vector2 0.5 0.5)).
    apply main_wide.
Defined.

(** C9.  The value [pow(dist / lensSize, bulge)] of line 93 is consumed by
    nothing: the shader with that statement deleted computes, for every
    texture, resolution, pointer position and fragment, the same result
    (same [dist], mask, [distortedUv], aberration and colour, and undefined
    at the same inputs). *)
Theorem displacement_never_consumed :
  forall (uTexture : sampler2D) (uResolution uMouse vUv : vec2),
    main CONFIG uTexture uResolution uMouse vUv =
    main_nodisp CONFIG uTexture uResolution uMouse vUv.
Proof.
  intros. apply main_nodisp_eq. simpl. lra.
Qed.

(** C10.  With [resolution.y <> 0], [lensSize > 0] and [uv <> mouse] every
    divisor of the shader is nonzero and [main] yields a fragment: for every
    configuration with a positive bulge, so for the compiled-in bulge with
    any positive [lensSize], and for [CONFIG] itself.  The divisor of
    [normalize(uv - mousePos)] is zero at [uv = mouse] and nowhere else. *)
Theorem main_total :
  (forall (c : Config) (uResolution uMouse uv : vec2),
     0 < lensSize c -> vy uResolution <> 0 -> uv <> uMouse ->
     vy uResolution <> 0 /\ lensSize c <> 0 /\
     lensSize c - lensSize c * 0.8 <> 0 /\
     GLSL.length (vsub uv uMouse) <> 0) /\
  (forall (c : Config) (uTexture : sampler2D) (uResolution uMouse uv : vec2),
     0 < lensSize c -> 0 < lensBulge c ->
     vy uResolution <> 0 -> uv <> uMouse ->
     exists f, main c uTexture uResolution uMouse uv = Some f) /\
  (forall (L : R) (uTexture : sampler2D) (uResolution uMouse uv : vec2),
     0 < L -> vy uResolution <> 0 -> uv <> uMouse ->
     exists f,
       main (mkConfig (imagePath CONFIG) L (lensBulge CONFIG)
               (aberrationStrength CONFIG))
            uTexture uResolution uMouse uv = Some f) /\
  (forall (uTexture : sampler2D) (uResolution uMouse uv : vec2),
     vy uResolution <> 0 -> uv <> uMouse ->
     exists f, main CONFIG uTexture uResolution uMouse uv = Some f) /\
  (forall uMouse uv : vec2,
     GLSL.length (vsub uv uMouse) = 0 <-> uv = uMouse).
Proof.
  assert (Hn : forall uMouse uv : vec2,
             GLSL.length (vsub uv uMouse) = 0 <-> uv = uMouse).
  { intros uMouse uv. rewrite length_zero_iff. apply vsub_zero_iff. }
  split; [| split; [| split; [| split]]].
  - intros c uResolution uMouse uv HL Hres Hne.
    repeat split; try lra; try assumption.
    intros E. apply Hne. apply Hn. exact E.
  - intros. apply main_defined; assumption.
  - intros L uTexture uResolution uMouse uv HL Hres Hne.
    apply main_defined; simpl; try assumption; lra.
  - intros uTexture uResolution uMouse uv Hres Hne.
    apply main_defined; simpl; try assumption; lra.
  - exact Hn.
Qed.

Lemma main_total_witness :
  (vy (Vector2 2 1) <> 0 /\ lensSize CONFIG <> 0 /\
   lensSize CONFIG - lensSize CONFIG * 0.8 <> 0 /\
   GLSL.length (vsub (Vector2 0.5 0.5) (Vector2 0 0.5)) <> 0) /\
  (exists f, main CONFIG (fun _ => Vector4 0 0 0 1) (Vector2 2 1)
               (Vector2 0 0.5) (Vector2 0.5 0.5) = Some f).
Proof.
  assert (Hne : Vector2 0.5 0.5 <> Vector2 0 0.5) by (intros [= H]; lra).
  assert (Hres : vy (Vector2 2 1) <> 0) by (simpl; lra).
  assert (HL : 0 < lensSize CONFIG) by (simpl; lra).
  assert (Hb : 0 < lensBulge CONFIG) by (simpl; lra).
  split.
  - exact (proj1 main_total CONFIG (Vector2 2 1) (Vector2 0 0.5)
             (Vector2 0.5 0.5) HL Hres Hne).
  - exact (proj1 (proj2 main_total) CONFIG (fun _ => Vector4 0 0 0 1)
             (Vector2 2 1) (Vector2 0 0.5) (Vector2 0.5 0.5) HL Hb Hres Hne).
Defined.

(** C1.  At the exact lens centre, [uv = mouse = (0.5,0.5)] under [CONFIG]:
    the distance is 0, the mask 1 and the aberration 0, but line 94
    normalizes the zero vector, so the distortion stage, and with it the
    fragment, has no defined value: no texture coordinate is read. *)
Theorem centre_fragment_undefined :
  let p := Vector2 0.5 0.5 in
  (forall uResolution : vec2,
     main_dist uResolution p p =
     (ax <- gdiv (vx uResolution) (vy uResolution) ;; ret 0)) /\
  main_lensMask CONFIG 0 = Some 1 /\
  main_aberration CONFIG 1 0 = Some 0 /\
  GLSL.normalize (vsub p p) = None /\
  main_distortedUv CONFIG p p 0 = None /\
  (forall (uTexture : sampler2D) (uResolution : vec2),
     main CONFIG uTexture uResolution p p = None).
Proof.
  intros p.
  assert (Hdist : forall uResolution : vec2,
            main_dist uResolution p p =
            (ax <- gdiv (vx uResolution) (vy uResolution) ;; ret 0)).
  { intros uResolution. unfold main_dist.
    destruct (gdiv (vx uResolution) (vy uResolution)) as [ax |];
      cbn [bind]; [| reflexivity].
    rewrite distance_self. reflexivity. }
  assert (Hmask : main_lensMask CONFIG 0 = Some 1)
    by (apply main_lensMask_inner; simpl; lra).
  assert (Hn : GLSL.normalize (vsub p p) = None)
    by (apply normalize_vsub_none_iff; reflexivity).
  assert (Hdu : main_distortedUv CONFIG p p 0 = None).
  { rewrite main_distortedUv_nodisp_eq by (simpl; lra).
    unfold main_distortedUv_nodisp.
    destruct (Rlt_dec 0 (lensSize CONFIG)) as [_ | N];
      [| exfalso; apply N; simpl; lra].
    rewrite Hn. reflexivity. }
  repeat split; try assumption.
  - rewrite main_aberration_some by (simpl; lra). f_equal. simpl. lra.
  - intros uTexture uResolution. unfold main. rewrite Hdist.
    destruct (gdiv (vx uResolution) (vy uResolution)) as [ax |];
      cbn [bind ret]; [| reflexivity].
    rewrite Hmask. cbn [bind]. rewrite Hdu. reflexivity.
Qed.

End LensTransform.

(** ** The pointer handler and the frame loop *)

Module FrameLoop.

Import FragmentFacts.

Lemma animate_targetMouse (app : App) :
  targetMouse (animate app) = targetMouse app.
Proof. reflexivity. Qed.

Lemma animate_mouse (app : App) :
  mouse (animate app) = Vector2Methods.lerp (mouse app) (targetMouse app) 0.1.
Proof. reflexivity. Qed.

Lemma ticks_targetMouse (n : nat) :
  forall app, targetMouse (ticks n app) = targetMouse app.
Proof.
  induction n as [| n IH]; intros app; simpl; [reflexivity |].
  rewrite IH. apply animate_targetMouse.
Qed.

(** After [n] ticks the offset to the target is the initial offset times
    [0.9 ^ n], in each component. *)
Lemma ticks_mouse (n : nat) :
  forall app,
    vx (targetMouse app) - vx (mouse (ticks n app))
      = 0.9 ^ n * (vx (targetMouse app) - vx (mouse app)) /\
    vy (targetMouse app) - vy (mouse (ticks n app))
      = 0.9 ^ n * (vy (targetMouse app) - vy (mouse app)).
Proof.
  induction n as [| n IH]; intros app.
  - simpl. split; ring.
  - destruct (IH (animate app)) as [Hx Hy].
    rewrite animate_targetMouse in Hx, Hy.
    change (ticks (S n) app) with (ticks n (animate app)).
    rewrite Hx, Hy, animate_mouse. simpl. split; lra.
Qed.

(** [app_loading] is what the program reaches from the constructor's
    [init], [createRenderer], [createMesh] by one pointer event. *)
Lemma app_loading_reached :
  onMouseMove (mkMouseEvent 800 0)
    (createMesh (createRenderer (init 800 600))) = Some app_loading.
Proof.
  unfold onMouseMove, createMesh, createRenderer, init.
  cbn [width height clientX clientY mouse targetMouse material effects].
  rewrite !gdiv_some by lra. cbn [bind]. unfold ret, Vector2Methods.set.
  replace (800 / 800) with 1 by lra.
  replace (1.0 - 0 / 600) with 1 by lra.
  reflexivity.
Qed.

(** The constructor's own first tick already runs with the material in
    place and the image still loading. *)
Lemma newApp_material (innerWidth innerHeight : R) :
  material (newApp innerWidth innerHeight) =
  Some {| uTexture := None;
          uMouse := Vector2Methods.lerp (Vector2 0.5 0.5) (Vector2 0.5 0.5) 0.1;
          uResolution := Vector2 innerWidth innerHeight;
          uTime := 0 + 0.01;
          uHover := 0 |}.
Proof. reflexivity. Qed.

(** The resolution parameter is written by the resize handler. *)
Lemma onResize_resolution (innerWidth innerHeight : R) (app : App)
    (u : Uniforms) :
  material app = Some u ->
  width (onResize innerWidth innerHeight app) = innerWidth /\
  height (onResize innerWidth innerHeight app) = innerHeight /\
  material (onResize innerWidth innerHeight app) =
  Some {| uTexture := uTexture u;
          uMouse := uMouse u;
          uResolution := Vector2 innerWidth innerHeight;
          uTime := uTime u;
          uHover := uHover u |}.
Proof.
  intros Hu. unfold onResize. cbn [width height material]. rewrite Hu.
  repeat split.
Qed.

(** Installing the texture changes what a tick pushes in [uTexture] only. *)
Lemma animate_onTextureLoaded (texture : sampler2D) (app : App)
    (u : Uniforms) :
  material (animate app) = Some u ->
  material (animate (onTextureLoaded texture app)) =
  Some {| uTexture := Some texture;
          uMouse := uMouse u;
          uResolution := uResolution u;
          uTime := uTime u;
          uHover := uHover u |}.
Proof.
  unfold animate, onTextureLoaded. cbn [material mouse targetMouse].
  destruct (material app) as [u0 |]; [| discriminate].
  intros [= <-]. reflexivity.
Qed.

(** C8.  With a nonzero viewport size the pointer handler stores
    [clientX / width] and [1 - clientY / height] in [targetMouse], unclamped,
    and changes nothing else: [mouse] ([current]), the viewport, the
    material and the effect log are as before. *)
Theorem onMouseMove_sets_target_only (e : MouseEvent) (app : App) :
  width app <> 0 -> height app <> 0 ->
  onMouseMove e app =
  Some {| width := width app;
          height := height app;
          mouse := mouse app;
          targetMouse := Vector2 (clientX e / width app)
                                 (1 - clientY e / height app);
          material := material app;
          effects := effects app |}.
Proof.
  intros Hw Hh. unfold onMouseMove.
  rewrite !gdiv_some by assumption. cbn [bind].
  unfold ret, Vector2Methods.set.
  replace (1.0 - clientY e / height app) with (1 - clientY e / height app)
    by lra.
  reflexivity.
Qed.

(** A pointer outside the viewport: the target leaves the unit square. *)
Lemma onMouseMove_sets_target_only_witness :
  onMouseMove (mkMouseEvent 1000 (-150)) app_loading =
  Some {| width := 800;
          height := 600;
          mouse := Vector2 0.5 0.5;
          targetMouse := Vector2 (1000 / 800) (1 - (-150) / 600);
          material := material app_loading;
          effects := effects app_loading |}.
Proof.
  apply (onMouseMove_sets_target_only (mkMouseEvent 1000 (-150)) app_loading);
    simpl; lra.
Defined.

(** C2, on the source: with the image still loading ([uTexture] null) one
    tick moves the shader's mouse parameter from [(0.5,0.5)] to
    [(0.55,0.55)] and the time value from [0] to [0.01]. *)
Lemma animate_pushes_without_texture :
  exists u u',
    material app_loading = Some u /\ uTexture u = None /\
    material (animate app_loading) = Some u' /\
    uMouse u' = Vector2 0.55 0.55 /\ uMouse u' <> uMouse u /\
    uTime u' = 0.01 /\ uTime u' <> uTime u.
Proof.
  do 2 eexists. split; [reflexivity |]. split; [reflexivity |].
  split; [reflexivity |].
  cbn [uMouse uTime uTexture app_loading mouse targetMouse].
  unfold Vector2Methods.copy, Vector2Methods.lerp. cbn [vx vy].
  repeat split.
  - f_equal; lra.
  - intros [= H _]. lra.
  - lra.
  - lra.
Qed.

(** C2, amended.  The guard of the tick is the material, not the texture:
    whenever the material exists, with or without a texture, the tick copies
    the smoothed [mouse] into [uMouse] and adds [0.01] to [uTime], and
    leaves [uTexture], [uResolution] and [uHover] as they are; without a
    material nothing is pushed.  Either way the tick first requests the next
    frame and last renders with the parameters just pushed. *)
Theorem animate_pushes_when_material (app : App) :
  (forall u, material app = Some u ->
     material (animate app) =
     Some {| uTexture := uTexture u;
             uMouse := Vector2Methods.lerp (mouse app) (targetMouse app) 0.1;
             uResolution := uResolution u;
             uTime := uTime u + 0.01;
             uHover := uHover u |}) /\
  (material app = None -> material (animate app) = None) /\
  effects (animate app) =
    RendererRender (material (animate app)) :: RequestAnimationFrame
      :: effects app.
Proof.
  split; [| split].
  - intros u Hu. unfold animate. cbn [material]. rewrite Hu. reflexivity.
  - intros Hn. unfold animate. cbn [material]. rewrite Hn. reflexivity.
  - reflexivity.
Qed.

Lemma animate_pushes_when_material_witness :
  material (animate app_loading) =
  Some {| uTexture := None;
          uMouse := Vector2Methods.lerp (Vector2 0.5 0.5) (Vector2 1 1) 0.1;
          uResolution := Vector2 800 600;
          uTime := 0 + 0.01;
          uHover := 0 |} /\
  material (animate app_smoothing) = None.
Proof.
  split.
  - exact (proj1 (animate_pushes_when_material app_loading) _ eq_refl).
  - exact (proj1 (proj2 (animate_pushes_when_material app_smoothing))
             eq_refl).
Defined.

End FrameLoop.

(** ** More on the lens: range, geometry and definedness *)

Module LensGeometry.

Import Fragment GLSLFacts FragmentFacts.

Lemma clamp_range (x : R) : 0 <= GLSL.clamp x 0 1 <= 1.
Proof.
  unfold GLSL.clamp, Rmin, Rmax.
  destruct (Rle_dec x 0); destruct (Rle_dec _ 1); lra.
Qed.


Lemma cubic_increasing (s t : R) :
  0 <= s -> s <= t -> t <= 1 ->
  s * s * (3 - 2 * s) <= t * t * (3 - 2 * t).
Proof.
  intros Hs Hst Ht. destruct (Req_dec_T s t) as [-> | N]; [lra |].
  apply Rlt_le, cubic_strictly_increasing; lra.
Qed.

Lemma cubic_range (t : R) : 0 <= t <= 1 -> 0 <= t * t * (3 - 2 * t) <= 1.
Proof.
  intros [H0 H1].
  pose proof (cubic_increasing 0 t (Rle_refl 0) H0 H1).
  pose proof (cubic_increasing t 1 H0 H1 (Rle_refl 1)).
  lra.
Qed.

Lemma vadd_zero (p : vec2) : vadd p (Vector2 0 0.0) = p.
Proof. destruct p. unfold vadd. cbn [vx vy]. f_equal; lra. Qed.

Lemma vsub_zero (p : vec2) : vsub p (Vector2 0 0.0) = p.
Proof. destruct p. unfold vsub. cbn [vx vy]. f_equal; lra. Qed.

Lemma main_lensMask_unit (c : Config) (d : R) :
  0 < lensSize c ->
  exists m, main_lensMask c d = Some m /\ 0 <= m <= 1.
Proof.
  intros HL. eexists. split; [apply main_lensMask_some; exact HL |].
  cbv zeta.
  pose proof (cubic_range _ (clamp_range
    ((d - lensSize c * 0.8) / (lensSize c - lensSize c * 0.8)))).
  lra.
Qed.



(** X2.  With a positive [lensSize] and a nonnegative aberration strength,
    the channel offset of every fragment lies between 0 and the aberration
    strength. *)
Theorem aberration_bounded (c : Config) (uTexture : sampler2D)
    (uResolution uMouse uv : vec2) (f : Frag) :
  0 < lensSize c -> 0 <= aberrationStrength c ->
  main c uTexture uResolution uMouse uv = Some f ->
  0 <= aberration f <= aberrationStrength c.
Proof.
  intros HL Hs Hmain. apply main_inv in Hmain.
  destruct Hmain as (Hd & Hm & _ & Hab & _).
  apply main_dist_nonneg in Hd.
  rewrite main_aberration_some in Hab by lra. injection Hab as <-.
  destruct (Rlt_dec (dist f) (lensSize c)) as [Hin | Hout].
  - destruct (main_lensMask_unit c (dist f) HL) as (m & Em & Hm0 & Hm1).
    rewrite Em in Hm. injection Hm as <-.
    assert (Hq : 0 <= dist f / lensSize c <= 1).
    { split.
      - apply Rmult_le_pos; [exact Hd |].
        apply Rlt_le, Rinv_0_lt_compat, HL.
      - apply Rmult_le_reg_r with (lensSize c); [exact HL |].
        unfold Rdiv. rewrite Rmult_assoc, Rinv_l by lra. lra. }
    assert (0 <= m * aberrationStrength c <= aberrationStrength c) by nra.
    nra.
  - rewrite main_lensMask_outer in Hm by lra. injection Hm as <-. lra.
Qed.

Lemma aberration_bounded_witness :
  0 <= aberration (mkFrag 1 0 (Vector2 0.5 0.5) 0
                     (main_color (fun _ => Vector4 0 0 0 1)
                        (Vector2 0.5 0.5) 0))
    <= aberrationStrength CONFIG.
Proof.
  apply (aberration_bounded CONFIG (fun _ => Vector4 0 0 0 1) (Vector2 2 1)
           (Vector2 0 0.5) (Vector2 0.5 0.5)).
  - simpl. lra.
  - simpl. lra.
  - apply main_wide.
Defined.

(** X3.  Outside the lens the fragment shows the texture as it is: all three
    channels are read at [uv] itself and the alpha is 1. *)
Theorem outside_lens_shows_texture (c : Config) (uTexture : sampler2D)
    (uResolution uMouse uv : vec2) (d : R) :
  0 < lensSize c ->
  main_dist uResolution uMouse uv = Some d ->
  lensSize c <= d ->
  exists f,
    main c uTexture uResolution uMouse uv = Some f /\
    gl_FragColor f =
    Vector4 (r (uTexture uv)) (g (uTexture uv)) (b (uTexture uv)) 1.
Proof.
  intros HL Hd Hout. eexists. split.
  - apply main_intro; [exact Hd | | |].
    + apply main_lensMask_outer; assumption.
    + apply main_distortedUv_outside; assumption.
    + apply main_aberration_some. lra.
  - cbn [gl_FragColor]. unfold main_color, GLSL.texture2D.
    replace (0 * aberrationStrength c * (d / lensSize c)) with 0 by ring.
    rewrite vadd_zero, vsub_zero. f_equal. lra.
Qed.

Lemma outside_lens_shows_texture_witness :
  exists f,
    main CONFIG (fun p => Vector4 (vx p) (vy p) 0 1) (Vector2 2 1)
      (Vector2 0 0.5) (Vector2 0.5 0.5) = Some f /\
    gl_FragColor f =
    Vector4 (r (Vector4 0.5 0.5 0 1)) (g (Vector4 0.5 0.5 0 1))
            (b (Vector4 0.5 0.5 0 1)) 1.
Proof.
  apply (outside_lens_shows_texture CONFIG
           (fun p => Vector4 (vx p) (vy p) 0 1) (Vector2 2 1)
           (Vector2 0 0.5) (Vector2 0.5 0.5) 1).
  - simpl. lra.
  - exact main_dist_wide.
  - simpl. lra.
Defined.

(** X6.  For a positive [lensSize] and a positive bulge the shader has no
    defined result exactly when the viewport height is 0 or the fragment is
    at the pointer. *)
Theorem main_undefined_iff (c : Config) (uTexture : sampler2D)
    (uResolution uMouse uv : vec2) :
  0 < lensSize c -> 0 < lensBulge c ->
  (main c uTexture uResolution uMouse uv = None <->
   vy uResolution = 0 \/ uv = uMouse).
Proof.
  intros HL Hb. split.
  - intros Hnone.
    destruct (Req_dec_T (vy uResolution) 0) as [E | N]; [left; exact E |].
    right.
    destruct (GLSL.normalize (vsub uv uMouse)) as [dir |] eqn:En.
    + assert (Hne : uv <> uMouse).
      { intros E. apply normalize_vsub_none_iff in E. congruence. }
      destruct (main_defined c uTexture uResolution uMouse uv HL Hb N Hne)
        as [f Hf].
      congruence.
    + apply normalize_vsub_none_iff. exact En.
  - intros [E | E].
    + unfold main, main_dist. rewrite E, gdiv_zero. reflexivity.
    + subst uv. unfold main.
      destruct (main_dist uResolution uMouse uMouse) as [d |] eqn:Hd;
        cbn [bind]; [| reflexivity].
      assert (d = 0).
      { unfold main_dist in Hd.
        destruct (gdiv (vx uResolution) (vy uResolution)) as [ax |];
          cbn [bind] in Hd; [| discriminate].
        rewrite distance_self in Hd. injection Hd as <-. reflexivity. }
      subst d. rewrite main_lensMask_some by exact HL. cbn [bind].
      rewrite main_distortedUv_nodisp_eq by (assumption || lra).
      unfold main_distortedUv_nodisp.
      destruct (Rlt_dec 0 (lensSize c)) as [_ | N]; [| contradiction].
      replace (GLSL.normalize (vsub uMouse uMouse)) with (@None vec2)
        by (symmetry; apply normalize_vsub_none_iff; reflexivity).
      reflexivity.
Qed.

Lemma main_undefined_iff_witness :
  main CONFIG (fun _ => Vector4 0 0 0 1) (Vector2 800 0)
    (Vector2 0.5 0.5) (Vector2 0.7 0.5) = None.
Proof.
  apply (main_undefined_iff CONFIG (fun _ => Vector4 0 0 0 1)
           (Vector2 800 0) (Vector2 0.5 0.5) (Vector2 0.7 0.5)).
  - simpl. lra.
  - simpl. lra.
  - left. reflexivity.
Defined.

End LensGeometry.

(** ** Sessions: what every reachable state satisfies *)

Module Session.

Lemma run_invariant (P : App -> Prop) :
  (forall ev app app', P app -> handle ev app = Some app' -> P app') ->
  forall evs app app', P app -> run evs app = Some app' -> P app'.
Proof.
  intros Hstep evs. induction evs as [| ev rest IH]; intros app app' HP Hrun.
  - injection Hrun as <-. exact HP.
  - cbn [run] in Hrun.
    destruct (handle ev app) as [app1 |] eqn:Hh; cbn [bind] in Hrun;
      [| discriminate].
    eapply IH; [| exact Hrun]. eapply Hstep; eassumption.
Qed.

Lemma onMouseMove_inv (e : MouseEvent) (app app' : App) :
  onMouseMove e app = Some app' ->
  width app <> 0 /\ height app <> 0 /\
  app' = {| width := width app;
            height := height app;
            mouse := mouse app;
            targetMouse := Vector2 (clientX e / width app)
                                   (1.0 - clientY e / height app);
            material := material app;
            effects := effects app |}.
Proof.
  unfold onMouseMove.
  destruct (Req_dec_T (width app) 0) as [E | Nw].
  { rewrite E, gdiv_zero. discriminate. }
  destruct (Req_dec_T (height app) 0) as [E | Nh].
  { rewrite E, gdiv_zero, gdiv_some by assumption. discriminate. }
  rewrite !gdiv_some by assumption. cbn [bind]. unfold ret.
  intros [= <-]. repeat split; assumption.
Qed.

Lemma handle_inSync (ev : Event) (app app' : App) :
  inSync app -> handle ev app = Some app' -> inSync app'.
Proof.
  intros (u & Hu & Hres & Hm) Hh. destruct ev; cbn [handle] in Hh.
  - injection Hh as <-. unfold inSync, onResize.
    cbn [material width height mouse]. rewrite Hu.
    eexists. split; [reflexivity |]. cbn [uResolution uMouse].
    split; [reflexivity | exact Hm].
  - apply onMouseMove_inv in Hh. destruct Hh as (_ & _ & ->).
    exists u. cbn [material width height mouse]. repeat split; assumption.
  - injection Hh as <-. unfold inSync, animate.
    cbn [material width height mouse]. rewrite Hu.
    eexists. split; [reflexivity |]. cbn [uResolution uMouse].
    split; [exact Hres | reflexivity].
  - injection Hh as <-. unfold inSync, onTextureLoaded.
    cbn [material width height mouse]. rewrite Hu.
    eexists. split; [reflexivity |]. cbn [uResolution uMouse].
    split; assumption.
  - injection Hh as <-. exists u. repeat split; assumption.
Qed.

Lemma newApp_inSync (w h : R) : inSync (newApp w h).
Proof.
  eexists. split; [reflexivity |]. cbn [uResolution uMouse].
  split; reflexivity.
Qed.

Lemma div_unit (x w : R) : 0 < w -> 0 <= x <= w -> 0 <= x / w <= 1.
Proof.
  intros Hw [H0 H1]. split.
  - apply Rmult_le_pos; [exact H0 |]. apply Rlt_le, Rinv_0_lt_compat, Hw.
  - apply Rmult_le_reg_r with w; [exact Hw |].
    unfold Rdiv. rewrite Rmult_assoc, Rinv_l by lra. lra.
Qed.

Lemma lerp_unit (p q : vec2) :
  inUnitSquare p -> inUnitSquare q ->
  inUnitSquare (Vector2Methods.lerp p q 0.1).
Proof.
  unfold inUnitSquare, Vector2Methods.lerp. cbn [vx vy]. lra.
Qed.

Lemma run_unit (evs : list Event) :
  forall app,
    0 < width app -> 0 < height app ->
    inUnitSquare (mouse app) -> inUnitSquare (targetMouse app) ->
    pointerInside evs (width app) (height app) ->
    exists app',
      run evs app = Some app' /\
      inUnitSquare (mouse app') /\ inUnitSquare (targetMouse app').
Proof.
  induction evs as [| ev rest IH]; intros app Hw Hh Hm Ht Hin.
  - exists app. split; [reflexivity | split; assumption].
  - destruct ev; cbn [pointerInside] in Hin; cbn [run handle].
    + destruct Hin as (Hw' & Hh' & Hin). unfold ret. cbn [bind].
      apply IH; assumption.
    + destruct Hin as (Hx & Hy & Hin).
      unfold onMouseMove. rewrite !gdiv_some by lra. cbn [bind].
      unfold ret. cbn [bind]. apply IH; cbn [width height mouse targetMouse];
        try assumption.
      unfold inUnitSquare, Vector2Methods.set. cbn [vx vy].
      pose proof (div_unit _ _ Hw Hx). pose proof (div_unit _ _ Hh Hy). lra.
    + unfold ret. cbn [bind]. apply IH; cbn [width height mouse targetMouse];
        try assumption.
      apply lerp_unit; assumption.
    + unfold ret. cbn [bind]. apply IH; assumption.
    + unfold ret. cbn [bind]. apply IH; assumption.
Qed.

(** X13.  While the viewport has a positive size and every pointer event
    lies inside the viewport of its moment, the session never fails and the
    pointer position handed to the shader stays in the unit square, as does
    the target it is eased towards. *)
Theorem uMouse_stays_in_unit_square (w h : R) (evs : list Event) :
  0 < w -> 0 < h -> pointerInside evs w h ->
  exists app u,
    run evs (newApp w h) = Some app /\
    material app = Some u /\
    inUnitSquare (uMouse u) /\ inUnitSquare (targetMouse app).
Proof.
  intros Hw Hh Hin.
  destruct (run_unit evs (newApp w h)) as (app & Hrun & Hm & Ht);
    try assumption;
    try (unfold inUnitSquare; cbn; lra).
  destruct (run_invariant inSync handle_inSync evs _ _ (newApp_inSync w h)
              Hrun) as (u & Hu & _ & Hum).
  exists app, u. rewrite Hum.
  split; [exact Hrun | split; [exact Hu | split; assumption]].
Qed.

Lemma uMouse_stays_in_unit_square_witness :
  exists app u,
    run [MouseMove (mkMouseEvent 800 0); AnimationFrame; Resize 1024 768;
         MouseMove (mkMouseEvent 0 768); AnimationFrame]
        (newApp 800 600) = Some app /\
    material app = Some u /\
    inUnitSquare (uMouse u) /\ inUnitSquare (targetMouse app).
Proof.
  apply uMouse_stays_in_unit_square; cbn; lra.
Defined.

(** X14.  A tick moves the smoothed pointer towards the target without
    passing it: each component of the new position lies between the old
    position and the target.  Once the position is at the target, any
    number of ticks leave it there. *)
Theorem tick_does_not_overshoot (app : App) :
  (Rmin (vx (mouse app)) (vx (targetMouse app))
     <= vx (mouse (animate app))
     <= Rmax (vx (mouse app)) (vx (targetMouse app))) /\
  (Rmin (vy (mouse app)) (vy (targetMouse app))
     <= vy (mouse (animate app))
     <= Rmax (vy (mouse app)) (vy (targetMouse app))) /\
  (mouse app = targetMouse app ->
   forall n, mouse (ticks n app) = targetMouse app).
Proof.
  split; [| split].
  - cbn. unfold Rmin, Rmax.
    destruct (Rle_dec (vx (mouse app)) (vx (targetMouse app))); lra.
  - cbn. unfold Rmin, Rmax.
    destruct (Rle_dec (vy (mouse app)) (vy (targetMouse app))); lra.
  - intros E n.
    destruct (FrameLoop.ticks_mouse n app) as [Hx Hy].
    rewrite E in Hx, Hy. apply vec2_eq; lra.
Qed.

Lemma tick_does_not_overshoot_witness :
  mouse (ticks 7 (createMesh (createRenderer (init 800 600))))
  = Vector2 0.5 0.5.
Proof.
  exact (proj2 (proj2 (tick_does_not_overshoot
                         (createMesh (createRenderer (init 800 600)))))
           eq_refl 7%nat).
Defined.

(** X15.  The pointer target is last-write-wins: after a pointer event,
    a second one leaves the state it would have left without the first. *)
Theorem pointer_last_write_wins (e1 e2 : MouseEvent) (app app1 : App) :
  onMouseMove e1 app = Some app1 ->
  onMouseMove e2 app1 = onMouseMove e2 app.
Proof.
  intros H. apply onMouseMove_inv in H. destruct H as (_ & _ & ->).
  reflexivity.
Qed.

Lemma pointer_last_write_wins_witness :
  onMouseMove (mkMouseEvent 200 300)
    {| width := 800;
       height := 600;
       mouse := Vector2 0.5 0.5;
       targetMouse := Vector2 (400 / 800) (1.0 - 150 / 600);
       material := material app_loading;
       effects := effects app_loading |}
  = onMouseMove (mkMouseEvent 200 300) app_loading.
Proof.
  apply (pointer_last_write_wins (mkMouseEvent 400 150)).
  unfold onMouseMove. cbn [width height clientX clientY app_loading].
  rewrite !gdiv_some by lra. reflexivity.
Defined.

(** The pointer handler has a real-valued target to store exactly when the
    viewport width and height are both nonzero. *)
Lemma onMouseMove_undefined_iff (e : MouseEvent) (app : App) :
  onMouseMove e app = None <-> width app = 0 \/ height app = 0.
Proof.
  split.
  - intros H.
    destruct (Req_dec_T (width app) 0) as [E | Nw]; [left; exact E |].
    destruct (Req_dec_T (height app) 0) as [E | Nh]; [right; exact E |].
    unfold onMouseMove in H. rewrite !gdiv_some in H by assumption.
    discriminate.
  - intros [E | E]; unfold onMouseMove.
    + rewrite E, gdiv_zero. reflexivity.
    + rewrite E, gdiv_zero.
      destruct (gdiv (clientX e) (width app)); reflexivity.
Qed.

End Session.

(** ** The preloader counter *)

Module PreloaderFacts.

Import Preloader.

Lemma increment_range (r : Q) :
  unitDraw r -> (0 <= Math_floor (r * 5) <= 4)%Z.
Proof.
  intros [H0 H1]. unfold Math_floor. split.
  - change 0%Z with (Qfloor 0). apply Qfloor_resp_le.
    apply Qmult_le_0_compat; [exact H0 | discriminate].
  - assert (Hlt : (Qfloor (r * 5) < 5)%Z).
    { rewrite Zlt_Qlt. apply Qle_lt_trans with (r * 5)%Q; [apply Qfloor_le |].
      change (inject_Z 5) with (1 * 5)%Q.
      apply Qmult_lt_compat_r; [reflexivity | exact H1]. }
    lia.
Qed.

Lemma increments_range (rs : list Q) :
  Forall unitDraw rs ->
  (0 <= increments rs <= 4 * Z.of_nat (List.length rs))%Z.
Proof.
  induction 1 as [| r rest Hr _ IH]; cbn [increments List.length]; [lia |].
  pose proof (increment_range r Hr). lia.
Qed.

Lemma setup_wellFormed (e : option string) : wellFormed (setupPreloader e).
Proof. split; cbn; [lia | reflexivity]. Qed.

Lemma fire_spec (r : Q) (st : State) :
  wellFormed st -> unitDraw r ->
  count (fire r st) = Z.min 100 (count st + Math_floor (r * 5)) /\
  wellFormed (fire r st).
Proof.
  intros [Hc Hi] Hr. pose proof (increment_range r Hr) as Hk.
  unfold fire. rewrite Hi.
  destruct (Z.eqb_spec (count st) 100) as [E | N]; cbn [negb].
  - split; [lia | split; [exact Hc |]]. rewrite Hi.
    destruct (Z.eqb_spec (count st) 100); [reflexivity | contradiction].
  - unfold callback, wellFormed. cbn [count interval].
    destruct (Z.ltb_spec 100 (count st + Math_floor (r * 5))) as [L | L].
    + split; [lia | split; [lia | reflexivity]].
    + split; [lia | split; [lia |]].
      destruct (Z.eqb_spec (count st + Math_floor (r * 5)) 100);
        [reflexivity |].
      rewrite Hi.
      destruct (Z.eqb_spec (count st) 100); [contradiction | reflexivity].
Qed.

Lemma fires_spec (rs : list Q) :
  forall st,
    wellFormed st -> Forall unitDraw rs ->
    count (fires rs st) = Z.min 100 (count st + increments rs) /\
    wellFormed (fires rs st).
Proof.
  induction rs as [| r rest IH]; intros st Hwf Hrs.
  - cbn [fires increments]. split; [destruct Hwf; lia | exact Hwf].
  - inversion Hrs as [| ? ? Hr Hrest]; subst.
    destruct (fire_spec r st Hwf Hr) as [Hc Hwf'].
    destruct (IH (fire r st) Hwf' Hrest) as [Hc' Hwf''].
    cbn [fires increments]. split; [| exact Hwf''].
    rewrite Hc', Hc.
    pose proof (increment_range r Hr).
    pose proof (increments_range rest Hrest).
    destruct Hwf. lia.
Qed.

Lemma fires_cleared (rs : list Q) (st : State) :
  interval st = false -> fires rs st = st.
Proof.
  intros H. induction rs as [| r rest IH]; [reflexivity |].
  cbn [fires]. unfold fire. rewrite H. exact IH.
Qed.

Lemma unitDraw_repeat (r : Q) (n : nat) :
  unitDraw r -> Forall unitDraw (repeat r n).
Proof.
  intros H. apply Forall_forall. intros x Hx.
  apply repeat_spec in Hx. subst x. exact H.
Qed.

Lemma unitDraw_four_fifths : unitDraw (4 # 5).
Proof. split; [discriminate | reflexivity]. Qed.

Lemma advances_spec (ks : list Z) :
  forall st,
    wellFormed st -> Forall (fun k => (0 <= k)%Z) ks ->
    count (advances ks st) = Z.min 100 (count st + total ks) /\
    wellFormed (advances ks st).
Proof.
  induction ks as [| k rest IH]; intros st Hwf Hks.
  - cbn [advances total]. split; [destruct Hwf; lia | exact Hwf].
  - inversion Hks as [| ? ? Hk Hrest]; subst.
    assert (Hrest0 : (0 <= total rest)%Z).
    { clear - Hrest. induction Hrest; cbn [total]; lia. }
    pose proof Hwf as Hwf0.
    destruct Hwf as [Hc Hi]. cbn [advances total]. rewrite Hi.
    destruct (Z.eqb_spec (count st) 100) as [E | N]; cbn [negb].
    + destruct (IH st Hwf0 Hrest) as [Hc' Hwf'].
      split; [rewrite Hc'; lia | exact Hwf'].
    + assert (Hwf1 : wellFormed (advance k st)).
      { unfold advance, wellFormed. cbn [count interval].
        destruct (Z.ltb_spec 100 (count st + k)) as [L | L].
        - split; [lia | reflexivity].
        - split; [lia |].
          destruct (Z.eqb_spec (count st + k) 100); [reflexivity |].
          rewrite Hi.
          destruct (Z.eqb_spec (count st) 100); [contradiction | reflexivity]. }
      destruct (IH (advance k st) Hwf1 Hrest) as [Hc' Hwf'].
      split; [| exact Hwf'].
      rewrite Hc'. unfold advance. cbn [count].
      destruct (Z.ltb_spec 100 (count st + k)); lia.
Qed.

(** X16.  Whatever nonnegative integers [Math.floor(Math.random() * 5)]
    yields, the counter after any number of timer periods is the sum of the
    increments, capped at 100; it is never below 0 or above 100. *)
Theorem counter_is_capped_total (e : option string) (ks : list Z) :
  Forall (fun k => (0 <= k)%Z) ks ->
  count (advances ks (setupPreloader e)) = Z.min 100 (total ks) /\
  (0 <= count (advances ks (setupPreloader e)) <= 100)%Z.
Proof.
  intros Hks.
  destruct (advances_spec ks _ (setup_wellFormed e) Hks) as [Hc [Hb _]].
  split; [exact Hc | exact Hb].
Qed.

Lemma counter_is_capped_total_witness :
  count (advances [3; 0; 4; 2]%Z (setupPreloader (Some "[000]"%string)))
    = Z.min 100 (total [3; 0; 4; 2]%Z) /\
  (0 <= count (advances [3; 0; 4; 2]%Z
                 (setupPreloader (Some "[000]"%string))) <= 100)%Z.
Proof.
  apply counter_is_capped_total.
  repeat constructor; discriminate.
Defined.

(** X17.  The interval timer is set exactly while the counter is below 100;
    once it is cleared, no further period changes the counter or the
    text. *)
Theorem interval_set_iff_below_100 (e : option string) (rs : list Q) :
  Forall unitDraw rs ->
  (interval (fires rs (setupPreloader e)) = true <->
   (count (fires rs (setupPreloader e)) < 100)%Z) /\
  (interval (fires rs (setupPreloader e)) = false ->
   forall rs', fires rs' (fires rs (setupPreloader e))
               = fires rs (setupPreloader e)).
Proof.
  intros Hrs.
  destruct (fires_spec rs _ (setup_wellFormed e) Hrs) as [_ [Hb Hi]].
  split.
  - rewrite Hi.
    destruct (Z.eqb_spec (count (fires rs (setupPreloader e))) 100);
      cbn [negb]; split; intros H; try reflexivity; try discriminate; lia.
  - intros Hf rs'. apply fires_cleared. exact Hf.
Qed.

Lemma interval_set_iff_below_100_witness :
  (interval (fires (repeat (4 # 5) 25) (setupPreloader None)) = true <->
   (count (fires (repeat (4 # 5) 25) (setupPreloader None)) < 100)%Z) /\
  (forall rs',
     fires rs' (fires (repeat (4 # 5) 25) (setupPreloader None))
     = fires (repeat (4 # 5) 25) (setupPreloader None)).
Proof.
  destruct (interval_set_iff_below_100 None (repeat (4 # 5) 25)
              (unitDraw_repeat _ 25 unitDraw_four_fifths)) as [H1 H2].
  split; [exact H1 |]. apply H2. reflexivity.
Defined.

(** X18.  The counter cannot reach 100 in fewer than 25 timer periods. *)
Theorem counter_needs_25_periods (e : option string) (rs : list Q) :
  Forall unitDraw rs ->
  count (fires rs (setupPreloader e)) = 100%Z ->
  (25 <= List.length rs)%nat.
Proof.
  intros Hrs H100.
  destruct (fires_spec rs _ (setup_wellFormed e) Hrs) as [Hc _].
  pose proof (increments_range rs Hrs). cbn [count setupPreloader] in Hc.
  lia.
Qed.

Lemma counter_needs_25_periods_witness :
  (25 <= List.length (repeat (4 # 5) 25))%nat.
Proof.
  apply (counter_needs_25_periods None (repeat (4 # 5) 25)).
  - apply unitDraw_repeat, unitDraw_four_fifths.
  - reflexivity.
Defined.

Lemma counterText_upto_100 (k : nat) :
  (k <= 100)%nat ->
  String.length (counterText (Z.of_nat k)) = 5%nat /\
  readCounter (counterText (Z.of_nat k)) = Some (Z.of_nat k).
Proof.
  intros Hk.
  do 101 (destruct k as [| k]; [vm_compute; split; reflexivity |]).
  lia.
Qed.

(** X19.  For every counter value from 0 to 100 the text is five characters
    long, an opening bracket, three decimal digits that read back as the
    value, and a closing bracket; so different values show different
    texts. *)
Theorem counter_text_shape (n m : Z) :
  (0 <= n <= 100)%Z -> (0 <= m <= 100)%Z ->
  String.length (counterText n) = 5%nat /\
  readCounter (counterText n) = Some n /\
  (counterText n = counterText m -> n = m).
Proof.
  intros Hn Hm.
  destruct (counterText_upto_100 (Z.to_nat n)) as [Hl Hr]; [lia |].
  destruct (counterText_upto_100 (Z.to_nat m)) as [_ Hr']; [lia |].
  rewrite Z2Nat.id in Hl, Hr by lia. rewrite Z2Nat.id in Hr' by lia.
  split; [exact Hl | split; [exact Hr |]].
  intros E. rewrite E in Hr. rewrite Hr' in Hr. now injection Hr.
Qed.

Lemma counter_text_shape_witness :
  String.length (counterText 7) = 5%nat /\
  readCounter (counterText 7) = Some 7%Z /\
  (counterText 7 = counterText 100 -> 7%Z = 100%Z).
Proof.
  apply counter_text_shape; lia.
Defined.

Lemma fire_el_some (r : Q) (st : State) :
  el st = Some (counterText (count st)) ->
  el (fire r st) = Some (counterText (count (fire r st))).
Proof.
  intros H. unfold fire. destruct (interval st); [| exact H].
  unfold callback. cbn [el count]. rewrite H. reflexivity.
Qed.

Lemma fire_el_none (r : Q) (st : State) :
  el st = None -> el (fire r st) = None.
Proof.
  intros H. unfold fire. destruct (interval st); [| exact H].
  unfold callback. cbn [el]. rewrite H. reflexivity.
Qed.

Lemma fires_el_some (rs : list Q) :
  forall st,
    el st = Some (counterText (count st)) ->
    el (fires rs st) = Some (counterText (count (fires rs st))).
Proof.
  induction rs as [| r rest IH]; intros st H; [exact H |].
  cbn [fires]. apply IH, fire_el_some, H.
Qed.

Lemma fires_el_none (rs : list Q) :
  forall st, el st = None -> el (fires rs st) = None.
Proof.
  induction rs as [| r rest IH]; intros st H; [exact H |].
  cbn [fires]. apply IH, fire_el_none, H.
Qed.

(** X20.  From the first timer period on, the element shows the text of the
    current counter value, whatever it showed before and whatever
    [Math.random] returns; a page without the element keeps counting and
    shows nothing. *)
Theorem element_shows_counter :
  (forall (before : string) (r : Q) (rs : list Q),
     el (fires (r :: rs) (setupPreloader (Some before))) =
     Some (counterText
             (count (fires (r :: rs) (setupPreloader (Some before)))))) /\
  (forall rs : list Q, el (fires rs (setupPreloader None)) = None) /\
  (forall (before : string) (rs : list Q),
     count (fires rs (setupPreloader None))
     = count (fires rs (setupPreloader (Some before)))).
Proof.
  split; [| split].
  - intros before r rs. cbn [fires]. apply fires_el_some. reflexivity.
  - intros rs. apply fires_el_none. reflexivity.
  - intros before rs.
    assert (G : forall st st',
               count st = count st' -> interval st = interval st' ->
               count (fires rs st) = count (fires rs st')).
    { induction rs as [| r rest IH]; intros st st' Hc Hi; [exact Hc |].
      cbn [fires]. apply IH.
      - unfold fire. rewrite <- Hi.
        destruct (interval st) eqn:Ei; [| exact Hc].
        unfold callback. cbn [count]. rewrite Hc. reflexivity.
      - unfold fire. rewrite <- Hi.
        destruct (interval st) eqn:Ei; [| congruence].
        unfold callback. cbn [interval]. rewrite Hc, <- Hi, Ei.
        reflexivity. }
    apply G; reflexivity.
Qed.

End PreloaderFacts.

(** ** The lens mask under rounding *)

Module LensRounded.

Import Fragment GLSLFacts FragmentFacts.






End LensRounded.

(** ** The application in binary64 *)

Module Binary64Facts.

Import Binary64.






Lemma handle_inSync64 (ev : Event) (app : App) :
  inSync app -> inSync (handle ev app).
Proof.
  intros (u & Hu & Hres & Hm). destruct ev; cbn [handle].
  - unfold inSync, onResize. cbn [material width height mouse]. rewrite Hu.
    eexists. split; [reflexivity |]. cbn [uResolution uMouse].
    split; [reflexivity | exact Hm].
  - exists u. unfold onMouseMove. cbn [material width height mouse].
    split; [exact Hu | split; assumption].
  - unfold inSync, animate. cbn [material width height mouse]. rewrite Hu.
    eexists. split; [reflexivity |]. cbn [uResolution uMouse].
    split; [exact Hres | reflexivity].
  - unfold inSync, onTextureLoaded. cbn [material width height mouse].
    rewrite Hu. eexists. split; [reflexivity |]. cbn [uResolution uMouse].
    split; assumption.
  - exists u. split; [exact Hu | split; assumption].
Qed.

Lemma run_inSync64 (evs : list Event) :
  forall app, inSync app -> inSync (run evs app).
Proof.
  induction evs as [| ev rest IH]; intros app H; [exact H |].
  cbn [run]. apply IH, handle_inSync64, H.
Qed.

Lemma newApp_inSync64 (w h dpr : spec_float) : inSync (newApp w h dpr).
Proof.
  eexists. split; [reflexivity |]. cbn [uResolution uMouse].
  split; reflexivity.
Qed.

(** X8.  After every session, whatever its events and whatever numbers
    they carry (zero sizes, infinities and NaN included), the material
    exists and its resolution parameter holds the current width and height
    of the application: no frame is drawn with the size of an earlier
    viewport. *)
Theorem resolution_follows_viewport (w h dpr : spec_float)
    (evs : list Event) :
  exists u,
    material (run evs (newApp w h dpr)) = Some u /\
    uResolution u = FVector2 (width (run evs (newApp w h dpr)))
                             (height (run evs (newApp w h dpr))).
Proof.
  destruct (run_inSync64 evs _ (newApp_inSync64 w h dpr)) as (u & Hu & Hres & _).
  exists u. split; assumption.
Qed.

(** X9.  After every session the mouse parameter of the shader holds the
    smoothed pointer position [mouse]: pointer events reach the shader only
    through the [lerp] of the frame loop. *)
Theorem uMouse_is_smoothed_mouse (w h dpr : spec_float) (evs : list Event) :
  exists u,
    material (run evs (newApp w h dpr)) = Some u /\
    uMouse u = mouse (run evs (newApp w h dpr)).
Proof.
  destruct (run_inSync64 evs _ (newApp_inSync64 w h dpr)) as (u & Hu & _ & Hm).
  exists u. split; assumption.
Qed.

Lemma iter_shift {A : Type} (f : A -> A) (n : nat) (x : A) :
  Nat.iter n f (f x) = f (Nat.iter n f x).
Proof.
  induction n as [| n IH]; [reflexivity |].
  cbn [Nat.iter nat_rect]. f_equal. exact IH.
Qed.

Lemma run_time (evs : list Event) :
  forall app u,
    material app = Some u ->
    exists u', material (run evs app) = Some u' /\
               uTime u' =
               Nat.iter (frames evs) (fun t => add t (dec 1 100)) (uTime u).
Proof.
  induction evs as [| ev rest IH]; intros app u Hu.
  - exists u. split; [exact Hu | reflexivity].
  - cbn [run]. destruct ev; cbn [handle frames].
    + apply (IH (onResize innerWidth innerHeight app)
               {| uTexture := uTexture u; uMouse := uMouse u;
                  uResolution := set (uResolution u) innerWidth innerHeight;
                  uTime := uTime u; uHover := uHover u |}).
      unfold onResize. cbn [material]. rewrite Hu. reflexivity.
    + apply (IH (onMouseMove e app) u). exact Hu.
    + destruct (IH (animate app)
                  {| uTexture := uTexture u;
                     uMouse := copy (uMouse u)
                                 (lerp (mouse app) (targetMouse app)
                                    (dec 1 10));
                     uResolution := uResolution u;
                     uTime := add (uTime u) (dec 1 100);
                     uHover := uHover u |}) as (u' & Hu' & Ht).
      { unfold animate. cbn [material]. rewrite Hu. reflexivity. }
      exists u'. split; [exact Hu' |]. rewrite Ht. cbn [uTime].
      apply (iter_shift (fun t => add t (dec 1 100))).
    + apply (IH (onTextureLoaded texture app)
               {| uTexture := Some texture; uMouse := uMouse u;
                  uResolution := uResolution u;
                  uTime := uTime u; uHover := uHover u |}).
      unfold onTextureLoaded. cbn [material]. rewrite Hu. reflexivity.
    + apply (IH app u). exact Hu.
Qed.

Lemma timeAfter_iter (n : nat) :
  Nat.iter n (fun t => add t (dec 1 100)) (dec 0 1) = timeAfter n.
Proof.
  induction n as [| n IH]; [reflexivity |].
  cbn [Nat.iter timeAfter nat_rect]. rewrite <- IH. reflexivity.
Qed.

(** X10.  The time parameter depends on the number of animation frames
    alone: after a session with [n] frames it is the result of [n + 1]
    successive binary64 additions of 0.01, the first one to 0 (the one
    more is the constructor's tick); resizes, pointer moves and the image
    load do not touch it and nothing resets it.  Six additions give
    0.060000000000000005, which is not the number 0.06. *)
Theorem uTime_counts_frames :
  (forall (w h dpr : spec_float) (evs : list Event),
     exists u,
       material (run evs (newApp w h dpr)) = Some u /\
       uTime u = timeAfter (S (frames evs))) /\
  timeAfter 6 = S754_finite false 8646911284551353 (-57) /\
  dec 6 100 = S754_finite false 8646911284551352 (-57).
Proof.
  split; [| split; vm_compute; reflexivity].
  intros w h dpr evs.
  destruct (run_time evs (newApp w h dpr)
              {| uTexture := None;
                 uMouse := copy (FVector2 (dec 5 10) (dec 5 10))
                             (lerp (FVector2 (dec 5 10) (dec 5 10))
                                (FVector2 (dec 5 10) (dec 5 10)) (dec 1 10));
                 uResolution := FVector2 w h;
                 uTime := add (dec 0 1) (dec 1 100);
                 uHover := dec 0 1 |} eq_refl) as (u & Hu & Ht).
  exists u. split; [exact Hu |]. rewrite Ht. cbn [uTime].
  rewrite (iter_shift (fun t => add t (dec 1 100))).
  rewrite timeAfter_iter. reflexivity.
Qed.

Lemma run_texture (evs : list Event) :
  forall app u,
    material app = Some u ->
    exists u', material (run evs app) = Some u' /\
               uTexture u' = lastTexture evs (uTexture u).
Proof.
  induction evs as [| ev rest IH]; intros app u Hu.
  - exists u. split; [exact Hu | reflexivity].
  - cbn [run]. destruct ev; cbn [handle lastTexture].
    + apply (IH (onResize innerWidth innerHeight app)
               {| uTexture := uTexture u; uMouse := uMouse u;
                  uResolution := set (uResolution u) innerWidth innerHeight;
                  uTime := uTime u; uHover := uHover u |}).
      unfold onResize. cbn [material]. rewrite Hu. reflexivity.
    + apply (IH (onMouseMove e app) u). exact Hu.
    + apply (IH (animate app)
               {| uTexture := uTexture u;
                  uMouse := copy (uMouse u)
                              (lerp (mouse app) (targetMouse app) (dec 1 10));
                  uResolution := uResolution u;
                  uTime := add (uTime u) (dec 1 100);
                  uHover := uHover u |}).
      unfold animate. cbn [material]. rewrite Hu. reflexivity.
    + apply (IH (onTextureLoaded texture app)
               {| uTexture := Some texture; uMouse := uMouse u;
                  uResolution := uResolution u;
                  uTime := uTime u; uHover := uHover u |}).
      unfold onTextureLoaded. cbn [material]. rewrite Hu. reflexivity.
    + apply (IH app u). exact Hu.
Qed.

(** X11.  After every session the texture parameter is null if the
    loader's success callback has not run and the texture it was last
    given otherwise: frames, resizes, pointer moves (at any viewport size)
    and a load failure never install or remove a texture, so a failed load
    leaves it null for good. *)
Theorem uTexture_is_last_loaded (w h dpr : spec_float) (evs : list Event) :
  exists u,
    material (run evs (newApp w h dpr)) = Some u /\
    uTexture u = lastTexture evs None.
Proof.
  exact (run_texture evs (newApp w h dpr) _ eq_refl).
Qed.

Lemma run_effects (evs : list Event) :
  forall app,
    requested (effects (run evs app))
      = (requested (effects app) + frames evs)%nat /\
    rendered (effects (run evs app))
      = (rendered (effects app) + frames evs)%nat /\
    sized (effects (run evs app))
      = (sized (effects app) + resizes evs)%nat.
Proof.
  induction evs as [| ev rest IH]; intros app.
  - cbn [run frames resizes]. repeat split; lia.
  - cbn [run]. destruct (IH (handle ev app)) as (Hq & Hr & Hs).
    rewrite Hq, Hr, Hs.
    destruct ev; cbn; repeat split; lia.
Qed.

(** X12.  Every animation frame requests exactly one next frame and issues
    exactly one draw, and no other handler does either: after a session
    the application has made one request and one draw per frame, plus one
    of each in the constructor's tick, and has itself called
    [renderer.setSize] once per resize event plus once in the
    constructor. *)
Theorem one_request_one_draw_per_frame (w h dpr : spec_float)
    (evs : list Event) :
  requested (effects (run evs (newApp w h dpr))) = S (frames evs) /\
  rendered (effects (run evs (newApp w h dpr))) = S (frames evs) /\
  sized (effects (run evs (newApp w h dpr))) = S (resizes evs).
Proof.
  destruct (run_effects evs (newApp w h dpr)) as (Hq & Hr & Hs).
  rewrite Hq, Hr, Hs. cbn. repeat split; lia.
Qed.

End Binary64Facts.
